(** * Numeric core of the Euler visualisation scenes

    The scenes under [src/] are animation scripts; the arithmetic they
    perform is small: a forward finite-difference slope and its angle
    ([01_ExponentialSlopes.py]), the value and the derivative of [a ** x]
    ([02_EulerNumber.py]), the tip of the rotating phasor [e^(j theta)]
    ([03_ComplexJRotation.py], [04_EulerLiveVisualization.py]) and a
    four-segment colour wheel keyed by the phase ([03_ComplexJRotation.py]).

    Number model.  A Python/NumPy float that holds a finite value is a real
    number of type [R]; the operations [+ - * /], [np.arctan], [np.tan],
    [np.cos], [np.sin], [np.exp], [np.log], [**] and [%] are the exact real
    operations, without rounding.  The results of [np.log] and [**] that are
    not finite real numbers (nan, inf) are [None].

    Where a property is sensitive to what the idealisation leaves out, its
    statement says so: the arguments are bounded to the range the scenes
    use, a tolerance takes the place of an equality, and the engine's
    constant [PI] is taken as the double that it is ([Np.pi]). *)

From Stdlib Require Import Reals Machin Lra Lia ZArith Zfloor String List.

Local Open Scope R_scope.

(** ** NumPy and Python primitives on finite floats *)

Module Np.

(** [np.log a]: the natural logarithm; [np.log 0] is [-inf] and the
    logarithm of a negative number is nan. *)
Definition log (a : R) : option R :=
  if Rlt_dec 0 a then Some (ln a) else None.

(** [a ** x] and [np.power a x] on floats, the C [pow]:
    a positive base gives [exp (x * ln a)]; base zero gives 0, 1 or inf
    by the sign of the exponent; a negative base gives a number only at
    an integral exponent, and nan elsewhere. *)
Definition power (a x : R) : option R :=
  if Rlt_dec 0 a then Some (Rpower a x)
  else if Req_dec_T a 0 then
    (if Rlt_dec 0 x then Some 0
     else if Req_dec_T x 0 then Some 1
     else None)
  else
    (if Req_dec_T (IZR (Zfloor x)) x then Some (powerRZ a (Zfloor x))
     else None).

(** [a % b] on floats, for a divisor [b <> 0]: the remainder has the sign
    of the divisor, [a - floor (a / b) * b]. *)
Definition mod_ (a b : R) : R := a - IZR (Zfloor (a / b)) * b.

(** Python complex numbers: a real and an imaginary part. *)
Definition complex : Type := (R * R)%type.

Definition of_real (x : R) : complex := (x, 0).

(** The literal [1j]. *)
Definition j : complex := (0, 1).

Definition cmul (z w : complex) : complex :=
  (fst z * fst w - snd z * snd w, fst z * snd w + snd z * fst w).

(** [np.exp] at a complex argument. *)
Definition cexp (z : complex) : complex :=
  (exp (fst z) * cos (snd z), exp (fst z) * sin (snd z)).

(** [np.pi], which the engine exports as [PI]: the double nearest to the
    number pi, [884279719003555 / 2 ^ 48]. *)
Definition pi : R := 884279719003555 / 281474976710656.

End Np.

(** ** 01_ExponentialSlopes.py *)

Module ExponentialSlopes.

(** [get_slope_angle(self, fun, x)].  [fun] is a callable that returns a
    finite float at the two points it is sampled at. *)
Definition get_slope_angle (fun_ : R -> R) (x : R) : R :=
  let df := fun x => (fun_ (x + 1e-6) - fun_ x) / 1e-6 in
  let slope := df x in
  let angle := atan slope in
  angle.

(** [get_slope_line1(self, ax, fun, x)]: the two end points of the dashed
    vertical side of the slope triangle, in axis coordinates (the pair
    handed to [ax.c2p]). *)
Definition get_slope_line1 (fun_ : R -> R) (x : R) : (R * R) * (R * R) :=
  let x_a := x + 1 in
  let y_a := tan (get_slope_angle fun_ x) + fun_ x in
  let p1 := (x_a, fun_ x) in
  let p2 := (x_a, y_a) in
  (p1, p2).

(** The default of [get_tangent_line]'s [length] parameter. *)
Definition default_length : R := 40.

(** The default of [create_function_elements]'s [x_range] parameter, which
    is also the range the first function is plotted over. *)
Definition default_x_range : R * R := (- 2.5, 3.5).

(** [get_tangent_line(self, ax, fun, x, length)]: start and end point of
    the tangent segment, in axis coordinates (the pairs handed to
    [ax.c2p]). *)
Definition get_tangent_line (fun_ : R -> R) (x : R) (length : R)
  : (R * R) * (R * R) :=
  let half_length := length / 2 in
  let angle := get_slope_angle fun_ x in
  let dx := half_length * cos angle in
  let dy := half_length * sin angle in
  let start := (x - dx, fun_ x - dy) in
  let end_ := (x + dx, fun_ x + dy) in
  (start, end_).

(** [get_slope_line2(self, ax, fun, x)]: start and end point of the dashed
    horizontal side of the slope triangle, in axis coordinates; the line is
    built as [DashedLine(p2, p1)]. *)
Definition get_slope_line2 (fun_ : R -> R) (x : R) : (R * R) * (R * R) :=
  let x_a := x + 1 in
  let p1 := (x_a, fun_ x) in
  let p2 := (x, fun_ x) in
  (p2, p1).

Section Axes.

(** The engine's axes: scene points, the map [ax.c2p] from axis
    coordinates to scene points and its inverse direction [ax.p2c]. *)
Variable point : Type.
Variable c2p : R * R -> point.
Variable p2c : point -> R * R.

(** A line of the scene, as [(line.get_start(), line.get_end())], built
    from its two end points in axis coordinates. *)
Definition line_of (ends : (R * R) * (R * R)) : point * point :=
  (c2p (fst ends), c2p (snd ends)).

(** The number shown by [print_label1(self, ax, line)]. *)
Definition print_label1 (line : point * point) : R :=
  Rabs (snd (p2c (snd line)) - snd (p2c (fst line))).

(** The number shown by [print_label2(self, ax, line)]. *)
Definition print_label2 (line : point * point) : R :=
  Rabs (fst (p2c (snd line)) - fst (p2c (fst line))).

(** [label1] and [label2] of [create_function_elements] while the moving
    dot is at abscissa [x]: the labels of the redrawn [slope_line1] and
    [slope_line2]. *)
Definition label1 (fun_ : R -> R) (x : R) : R :=
  print_label1 (line_of (get_slope_line1 fun_ x)).

Definition label2 (fun_ : R -> R) (x : R) : R :=
  print_label2 (line_of (get_slope_line2 fun_ x)).

End Axes.

End ExponentialSlopes.

(** ** 02_EulerNumber.py *)

Module EulerNumber.

(** The two [ValueTracker]s that the closures [get_val] and [get_slope]
    read: the state of the scene as far as they are concerned. *)
Record trackers : Type := Trackers { a_tracker : R; x_tracker : R }.

(** [get_val()]: [a_tracker.get_value() ** x_tracker.get_value()]. *)
Definition get_val (s : trackers) : option R :=
  Np.power (a_tracker s) (x_tracker s).

(** [get_slope()]:
    [np.log(a_tracker.get_value()) * (a_tracker.get_value() ** x_tracker.get_value())]. *)
Definition get_slope (s : trackers) : option R :=
  match Np.log (a_tracker s), Np.power (a_tracker s) (x_tracker s) with
  | Some l, Some p => Some (l * p)
  | _, _ => None
  end.

(** The pair of both read-outs with the trackers at [base] and [x]. *)
Definition expValueAndDerivative (base x : R) : option (R * R) :=
  let s := Trackers base x in
  match get_val s, get_slope s with
  | Some v, Some d => Some (v, d)
  | _, _ => None
  end.

(** The text of the status indicator in [identity_label]. *)
Definition identity_status (s : trackers) : string :=
  if Rlt_dec (Rabs (a_tracker s - exp 1)) 0.01
  then "IDENTICAL"%string else "PROPORTIONAL"%string.

(** Position of the moving [dot], in axis coordinates. *)
Definition dot_position (s : trackers) : option (R * R) :=
  match get_val s with
  | Some v => Some (x_tracker s, v)
  | None => None
  end.

(** Start and end point of the [tangent] line, in axis coordinates. *)
Definition tangent (s : trackers) : option ((R * R) * (R * R)) :=
  match get_val s, get_slope s with
  | Some v, Some d =>
      Some ((x_tracker s - 0.8, v - d * 0.8),
            (x_tracker s + 0.8, v + d * 0.8))
  | _, _ => None
  end.

(** The [x_range] over which [graph] and [deriv_graph] are plotted and the
    [y_range] of [axes]. *)
Definition plot_x_range : R * R := (- 3, 2.3).
Definition axes_y_range : R * R := (0, 15).

End EulerNumber.

(** ** Colours of the rendering engine *)

Module Color.

(** An RGB colour, one real number per channel. *)
Record color : Type := RGB { red : R; green : R; blue : R }.

(** Modelled from the spec: the engine's [interpolate_color(c1, c2, alpha)]
    is not part of the sources; the specification describes it as linear
    in each RGB channel, with fraction 0 giving the first colour and
    fraction 1 the second. *)
Definition interpolate_color (c1 c2 : color) (alpha : R) : color :=
  RGB ((1 - alpha) * red c1 + alpha * red c2)
      ((1 - alpha) * green c1 + alpha * green c2)
      ((1 - alpha) * blue c1 + alpha * blue c2).

(** The three channel read-outs, as a finite enumeration. *)
Inductive channel : Type := Red | Green | Blue.

Definition get (ch : channel) (c : color) : R :=
  match ch with
  | Red => red c
  | Green => green c
  | Blue => blue c
  end.

End Color.

(** ** 03_ComplexJRotation.py *)

Module ComplexJRotation.
Import Color.


(** End point of the [phasor] arrow at tracker value [angle]: the complex
    number handed to [plane.n2p], [np.exp(1j * angle)]. *)
Definition phasor_end (angle : R) : Np.complex :=
  Np.cexp (Np.cmul Np.j (Np.of_real angle)).

Section Palette.

(** The four colour constants of the engine that the wheel runs
    through; their values are the engine's and stay abstract. *)
Variables BLUE GREEN RED PURPLE : color.

(** [get_current_color(self, angle)]. *)
Definition get_current_color (angle : R) : color :=
  let normalized_angle := Np.mod_ angle (2 * PI) in
  if Rle_dec normalized_angle (PI / 2) then
    interpolate_color BLUE GREEN (normalized_angle / (PI / 2))
  else if Rle_dec normalized_angle PI then
    interpolate_color GREEN RED ((normalized_angle - PI / 2) / (PI / 2))
  else if Rle_dec normalized_angle (3 * PI / 2) then
    interpolate_color RED PURPLE ((normalized_angle - PI) / (PI / 2))
  else
    interpolate_color PURPLE BLUE
      ((normalized_angle - 3 * PI / 2) / (PI / 2)).

(** The same four-way branch, returning the fraction that the taken
    branch hands to [interpolate_color]. *)
Definition current_fraction (angle : R) : R :=
  let normalized_angle := Np.mod_ angle (2 * PI) in
  if Rle_dec normalized_angle (PI / 2) then
    normalized_angle / (PI / 2)
  else if Rle_dec normalized_angle PI then
    (normalized_angle - PI / 2) / (PI / 2)
  else if Rle_dec normalized_angle (3 * PI / 2) then
    (normalized_angle - PI) / (PI / 2)
  else
    (normalized_angle - 3 * PI / 2) / (PI / 2).

(** The same four-way branch, returning the two colours that the taken
    branch hands to [interpolate_color]. *)
Definition current_anchors (angle : R) : color * color :=
  let normalized_angle := Np.mod_ angle (2 * PI) in
  if Rle_dec normalized_angle (PI / 2) then (BLUE, GREEN)
  else if Rle_dec normalized_angle PI then (GREEN, RED)
  else if Rle_dec normalized_angle (3 * PI / 2) then (RED, PURPLE)
  else (PURPLE, BLUE).

(** [t] clamped to [[0, 1]], written with absolute values. *)
Definition clamp01 (t : R) : R := (Rabs t - Rabs (t - 1) + 1) / 2.

(** Closed form of one channel of the wheel on the reduced angle [r]:
    the first anchor plus, for each of the four segments, the step to
    the next anchor scaled by how far [r] has advanced through that
    segment.  It is a sum of clamped linear pieces, with no branch. *)
Definition wheel_channel (ch : channel) (r : R) : R :=
  let t := r / (PI / 2) in
  get ch BLUE
  + (get ch GREEN - get ch BLUE) * clamp01 t
  + (get ch RED - get ch GREEN) * clamp01 (t - 1)
  + (get ch PURPLE - get ch RED) * clamp01 (t - 2)
  + (get ch BLUE - get ch PURPLE) * clamp01 (t - 3).

(** The fixed ordered list of the four anchor colours. *)
Definition anchors : list color := BLUE :: GREEN :: RED :: PURPLE :: nil.

(** Anchor number [k], counted cyclically. *)
Definition anchor (k : Z) : color :=
  List.nth (Z.to_nat (k mod 4)) anchors BLUE.

(** The colour wheel as the specification words it: reduce the angle
    into [[0, 2 PI)], take the segment of width [PI / 2] that the
    reduced angle falls in (segments closed on the left), and
    interpolate from that segment's anchor to the next one, cyclically,
    with fraction [(reduced - segment_start) / (PI / 2)]. *)
Definition phaseColor_spec (theta : R) : color :=
  let reduced := Np.mod_ theta (2 * PI) in
  let k := Zfloor (reduced / (PI / 2)) in
  let segment_start := IZR k * (PI / 2) in
  interpolate_color (anchor k) (anchor (k + 1))
    ((reduced - segment_start) / (PI / 2)).


End Palette.

End ComplexJRotation.

(** ** 04_EulerLiveVisualization.py *)

Module EulerLiveVisualization.

(** End point of the rotating [vector] at tracker value [t]:
    [np.exp(1j * t)]. *)
Definition vector_end (t : R) : Np.complex :=
  Np.cexp (Np.cmul Np.j (Np.of_real t)).

(** End point of [real_line]: the real number [np.cos(t)] handed to
    [plane.n2p], that is the point [(cos t, 0)]. *)
Definition real_line_end (t : R) : Np.complex := Np.of_real (cos t).

(** Start and end of [imag_line], as the complex numbers handed to
    [plane.n2p]: from [np.cos(t)] to [np.exp(1j * t)]. *)
Definition imag_line (t : R) : Np.complex * Np.complex :=
  (Np.of_real (cos t), Np.cexp (Np.cmul Np.j (Np.of_real t))).

End EulerLiveVisualization.

(** ** 05_EulerPropagation.py *)

Module EulerPropagation.

(** The argument of [axes.c2p] in the [helix]: the point of the curve at
    parameter [t], in axis coordinates (theta axis, imaginary axis, real
    axis). *)
Definition helix (t : R) : R * R * R := (t / (2 * PI) * 3, sin t, cos t).

(** The [t_range] of the helix. *)
Definition helix_t_range : R * R := (0, 4 * PI).

(** Where the [dot] is first put: [axes.c2p(0, 1, 0)]. *)
Definition dot_start : R * R * R := (0, 1, 0).

(** The ranges of the three axes. *)
Definition x_range : R * R := (- 2, 10).
Definition y_range : R * R := (- 3, 3).
Definition z_range : R * R := (- 3, 3).

End EulerPropagation.

(** ** Properties named by the specification *)

(** The agreement that section 8 of the specification asks for between the
    two ways to the slope at [x] of [f(x) = base ** x]: the angle of the
    finite-difference slope and the arctangent of the analytic derivative
    read-out differ by less than 1e-4. *)
Definition slope_angle_agrees (base x : R) : Prop :=
  exists (f : R -> R) (v d : R),
    (forall y : R, Np.power base y = Some (f y))
    /\ EulerNumber.expValueAndDerivative base x = Some (v, d)
    /\ Rabs (ExponentialSlopes.get_slope_angle f x - atan d) < 1e-4.

(** The cycle [1, j, -1, -j]: the point that a phasor turned by [k]
    quarter turns ends at. *)
Definition quarter_point (k : Z) : Np.complex :=
  match (k mod 4)%Z with
  | 0%Z => (1, 0)
  | 1%Z => (0, 1)
  | 2%Z => (-1, 0)
  | _ => (0, -1)
  end.

(** Two complex numbers agree within [tol] in both coordinates. *)
Definition within (tol : R) (z w : Np.complex) : Prop :=
  Rabs (fst z - fst w) <= tol /\ Rabs (snd z - snd w) <= tol.

(** * Properties *)

Import ExponentialSlopes EulerNumber Color ComplexJRotation.

(** ** Slope estimator *)

Section SlopeEstimator.

Variable f : R -> R.
Variable x : R.

(** C2: [get_slope_angle] returns the arctangent of the forward
    finite-difference slope with step 1e-6; the angle lies strictly
    between [-PI/2] and [PI/2], and its tangent is that slope. *)
Theorem get_slope_angle_atan_forward_difference :
  get_slope_angle f x = atan ((f (x + 1e-6) - f x) / 1e-6)
  /\ - PI / 2 < get_slope_angle f x < PI / 2
  /\ tan (get_slope_angle f x) = (f (x + 1e-6) - f x) / 1e-6.
Proof.
  unfold get_slope_angle; cbv zeta.
  split; [reflexivity | split].
  - apply atan_bound.
  - apply tan_atan.
Qed.

End SlopeEstimator.

(** ** Exponential and derivative read-outs *)

Lemma np_log_pos (a : R) : 0 < a -> Np.log a = Some (ln a).
Proof.
  intros Ha; unfold Np.log.
  destruct (Rlt_dec 0 a) as [_ | Hn]; [reflexivity | contradiction].
Qed.

Lemma np_power_pos (a x : R) : 0 < a -> Np.power a x = Some (Rpower a x).
Proof.
  intros Ha; unfold Np.power.
  destruct (Rlt_dec 0 a) as [_ | Hn]; [reflexivity | contradiction].
Qed.

Lemma get_val_pos (a x : R) :
  0 < a -> get_val (Trackers a x) = Some (Rpower a x).
Proof. intros Ha; unfold get_val; cbn. now apply np_power_pos. Qed.

Lemma get_slope_pos (a x : R) :
  0 < a -> get_slope (Trackers a x) = Some (ln a * Rpower a x).
Proof.
  intros Ha; unfold get_slope; cbn.
  now rewrite np_log_pos, np_power_pos.
Qed.

Lemma expValueAndDerivative_pos (a x : R) :
  0 < a ->
  expValueAndDerivative a x = Some (Rpower a x, ln a * Rpower a x).
Proof.
  intros Ha; unfold expValueAndDerivative; cbv zeta.
  now rewrite get_val_pos, get_slope_pos.
Qed.

(** The second read-out is the derivative of the first one in [x]. *)
Lemma get_slope_is_derivative (a x : R) :
  0 < a ->
  derivable_pt_lim (fun y => Rpower a y) x (ln a * Rpower a x).
Proof.
  intros Ha.
  unfold Rpower.
  replace (ln a * exp (x * ln a)) with (exp (x * ln a) * (1 * ln a)) by ring.
  apply (derivable_pt_lim_comp (fun y => y * ln a) exp).
  - apply derivable_pt_lim_scal_right, derivable_pt_lim_id.
  - apply derivable_pt_lim_exp.
Qed.

(** C3: at a base [base > 0], [base <> 1], the read-outs are [base ^ x] and
    [ln base * base ^ x]; at [x = 0] they are [1] and [ln base]. *)
Theorem expValueAndDerivative_value_and_slope
    (base x : R) (Hpos : 0 < base) (Hne : base <> 1) :
  expValueAndDerivative base x = Some (Rpower base x, ln base * Rpower base x)
  /\ expValueAndDerivative base 0 = Some (1, ln base).
Proof.
  split.
  - now apply expValueAndDerivative_pos.
  - rewrite expValueAndDerivative_pos by assumption.
    rewrite Rpower_O by assumption.
    now rewrite Rmult_1_r.
Qed.

(** The scenario of the specification: bases 2 and 3 at [x = 0]. *)
Lemma expValueAndDerivative_value_and_slope_witness :
  (0 < 2 /\ 2 <> 1 /\ expValueAndDerivative 2 0 = Some (1, ln 2))
  /\ (0 < 3 /\ 3 <> 1 /\ expValueAndDerivative 3 0 = Some (1, ln 3)).
Proof.
  assert (H2 : 0 < 2) by lra.
  assert (H2' : 2 <> 1) by lra.
  assert (H3 : 0 < 3) by lra.
  assert (H3' : 3 <> 1) by lra.
  split; (split; [assumption | split; [assumption |]]).
  - exact (proj2 (expValueAndDerivative_value_and_slope 2 0 H2 H2')).
  - exact (proj2 (expValueAndDerivative_value_and_slope 3 0 H3 H3')).
Defined.

(** C1: with the base tracker at [e = np.exp(1)] the two read-outs are the
    same number at every [x], hence equal within relative tolerance 1e-9. *)
Theorem expValueAndDerivative_at_e (x : R) :
  exists v d : R,
    expValueAndDerivative (exp 1) x = Some (v, d)
    /\ v = d
    /\ Rabs (v - d) <= 1e-9 * Rmax (Rabs v) (Rabs d).
Proof.
  exists (Rpower (exp 1) x), (Rpower (exp 1) x).
  split; [| split].
  - rewrite expValueAndDerivative_pos by apply exp_pos.
    rewrite ln_exp.
    now rewrite Rmult_1_l.
  - reflexivity.
  - rewrite Rminus_diag, Rabs_R0.
    apply Rmult_le_pos; [lra |].
    apply Rle_trans with (Rabs (Rpower (exp 1) x)).
    + apply Rabs_pos.
    + apply Rmax_l.
Qed.

(** ** Rotating phasor *)

Lemma phasor_end_cos_sin (theta : R) : phasor_end theta = (cos theta, sin theta).
Proof.
  unfold phasor_end, Np.cexp, Np.cmul, Np.j, Np.of_real; cbn [fst snd].
  replace (0 * theta - 1 * 0) with 0 by ring.
  replace (0 * 0 + 1 * theta) with theta by ring.
  rewrite exp_0.
  now rewrite !Rmult_1_l.
Qed.

Lemma vector_end_phasor_end (t : R) :
  EulerLiveVisualization.vector_end t = phasor_end t.
Proof. reflexivity. Qed.

(** The real projection line of the live scene ends below the vector. *)
Lemma real_line_end_projection (t : R) :
  EulerLiveVisualization.real_line_end t =
    (fst (EulerLiveVisualization.vector_end t), 0).
Proof.
  rewrite vector_end_phasor_end, phasor_end_cos_sin.
  reflexivity.
Qed.

(** Whole turns, forwards or backwards, do not move a point of the circle. *)
Lemma cos_sin_turns (x : R) (q : Z) :
  cos (x + 2 * IZR q * PI) = cos x /\ sin (x + 2 * IZR q * PI) = sin x.
Proof.
  destruct (Z_le_gt_dec 0 q) as [Hq | Hq].
  - rewrite <- (Z2Nat.id q Hq), <- INR_IZR_INZ.
    split; [apply cos_period | apply sin_period].
  - assert (Hn : (0 <= - q)%Z) by lia.
    set (y := x + 2 * IZR q * PI).
    assert (Hx : x = y + 2 * INR (Z.to_nat (- q)) * PI).
    { unfold y. rewrite INR_IZR_INZ, (Z2Nat.id _ Hn), opp_IZR. ring. }
    clearbody y.
    rewrite Hx.
    split; symmetry; [apply cos_period | apply sin_period].
Qed.

(** C7: the end point of the phasor (and of the live scene's vector) lies
    on the unit circle: its squared modulus is 1, hence within 1e-9 of 1. *)
Theorem phasor_end_on_unit_circle (theta : R) :
  let re := fst (phasor_end theta) in
  let im := snd (phasor_end theta) in
  re * re + im * im = 1
  /\ Rabs (re * re + im * im - 1) <= 1e-9
  /\ EulerLiveVisualization.vector_end theta = phasor_end theta.
Proof.
  cbv zeta.
  rewrite phasor_end_cos_sin; cbn [fst snd].
  assert (H : cos theta * cos theta + sin theta * sin theta = 1).
  { generalize (sin2_cos2 theta); unfold Rsqr; lra. }
  split; [exact H | split].
  - rewrite H, Rminus_diag, Rabs_R0. lra.
  - exact (phasor_end_cos_sin theta).
Qed.

Lemma phasor_end_quarter (k : Z) :
  phasor_end (IZR k * (PI / 2)) =
    match (k mod 4)%Z with
    | 0%Z => (1, 0)
    | 1%Z => (0, 1)
    | 2%Z => (-1, 0)
    | _ => (0, -1)
    end.
Proof.
  rewrite phasor_end_cos_sin.
  assert (Hk : k = (4 * (k / 4) + k mod 4)%Z) by (apply Z.div_mod; lia).
  assert (Hr : (0 <= k mod 4 < 4)%Z) by (apply Z.mod_pos_bound; lia).
  set (r := (k mod 4)%Z) in *.
  set (q := (k / 4)%Z) in *.
  assert (Ha : IZR k * (PI / 2) = IZR r * (PI / 2) + 2 * IZR q * PI).
  { rewrite Hk at 1. rewrite plus_IZR, mult_IZR. lra. }
  rewrite Ha.
  destruct (cos_sin_turns (IZR r * (PI / 2)) q) as [-> ->].
  assert (Hcases : r = 0%Z \/ r = 1%Z \/ r = 2%Z \/ r = 3%Z) by lia.
  destruct Hcases as [-> | [-> | [-> | ->]]].
  - rewrite Rmult_0_l, cos_0, sin_0. reflexivity.
  - rewrite Rmult_1_l, cos_PI2, sin_PI2. reflexivity.
  - replace (2 * (PI / 2)) with PI by lra.
    rewrite cos_PI, sin_PI. reflexivity.
  - rewrite cos_3PI2, sin_3PI2. reflexivity.
Qed.


(** *** The quarter turns at the double [np.pi] *)

(** The double [np.pi] lies below the number pi, by less than 1e-15
    (Machin's series for [PI / 4], sixteen and fifteen terms). *)
Lemma np_pi_lt_PI : Np.pi < PI.
Proof.
  destruct (PI_2_3_7_ineq 7) as [H _].
  cbn [sum_f_R0 Nat.mul Nat.add] in H.
  unfold tg_alt, PI_2_3_7_tg, Ratan_seq in H.
  repeat rewrite INR_IZR_INZ in H.
  cbn [Nat.mul Nat.add Z.of_nat Pos.of_succ_nat Pos.succ] in H.
  unfold Np.pi.
  lra.
Qed.

Lemma PI_lt_np_pi_plus : PI < Np.pi + 1e-15.
Proof.
  destruct (PI_2_3_7_ineq 7) as [_ H].
  cbn [sum_f_R0 Nat.mul Nat.add] in H.
  unfold tg_alt, PI_2_3_7_tg, Ratan_seq in H.
  repeat rewrite INR_IZR_INZ in H.
  cbn [Nat.mul Nat.add Z.of_nat Pos.of_succ_nat Pos.succ] in H.
  unfold Np.pi.
  lra.
Qed.

(** Cosine and sine move no faster than their argument. *)
Lemma cos_sin_lipschitz (a b : R) :
  Rabs (cos b - cos a) <= Rabs (b - a)
  /\ Rabs (sin b - sin a) <= Rabs (b - a).
Proof.
  split.
  - destruct (MVT_abs cos (fun c => - sin c) a b) as (c & Hc & _).
    + intros c _. apply derivable_pt_lim_cos.
    + rewrite Hc, Rabs_Ropp.
      rewrite <- (Rmult_1_l (Rabs (b - a))) at 2.
      apply Rmult_le_compat_r; [apply Rabs_pos |].
      apply Rabs_le. apply SIN_bound.
  - destruct (MVT_abs sin cos a b) as (c & Hc & _).
    + intros c _. apply derivable_pt_lim_sin.
    + rewrite Hc.
      rewrite <- (Rmult_1_l (Rabs (b - a))) at 2.
      apply Rmult_le_compat_r; [apply Rabs_pos |].
      apply Rabs_le. apply COS_bound.
Qed.

Lemma phasor_end_within (tol a b : R) :
  Rabs (b - a) <= tol -> within tol (phasor_end b) (phasor_end a).
Proof.
  intros Hab.
  unfold within.
  rewrite !phasor_end_cos_sin; cbn [fst snd].
  destruct (cos_sin_lipschitz a b) as [Hc Hs].
  split; lra.
Qed.

(** C8, as stated: at the angle [PI / 2] that the scene passes, the half
    of the double [np.pi], the end point of the phasor is not [(0, 1)]:
    the angle is short of a quarter turn, so the real part is positive. *)
Lemma phasor_end_at_np_pi_half_is_not_j : phasor_end (Np.pi / 2) <> (0, 1).
Proof.
  rewrite phasor_end_cos_sin.
  intros H.
  injection H as Hc _.
  assert (Hlt := np_pi_lt_PI).
  assert (Hpos : 0 < Np.pi) by (unfold Np.pi; lra).
  assert (0 < cos (Np.pi / 2)) by (apply cos_gt_0; lra).
  lra.
Qed.

(** C8, amended: the end point of the phasor at angle 0 is [(1, 0)]
    exactly; with [PI] the double [np.pi], at [k * PI / 2] for an integer
    [k] between -1000 and 1000 it lies within 1e-9, in each coordinate, of
    the point of the cycle [1, j, -1, -j] that [k mod 4] selects, and for
    an angle between -1000 and 1000 the end point at [theta + 2 * PI] lies
    within 1e-9 of the end point at [theta]. *)
Theorem phasor_end_quarter_turns_within_tolerance
    (k : Z) (theta : R)
    (Hk : (- 1000 <= k <= 1000)%Z) (Htheta : - 1000 <= theta <= 1000) :
  phasor_end 0 = (1, 0)
  /\ within 1e-9 (phasor_end (IZR k * (Np.pi / 2))) (quarter_point k)
  /\ List.In (quarter_point k)
       ((1, 0) :: (0, 1) :: (-1, 0) :: (0, -1) :: nil)
  /\ within 1e-9 (phasor_end (theta + 2 * Np.pi)) (phasor_end theta).
Proof.
  assert (Hlo := np_pi_lt_PI).
  assert (Hhi := PI_lt_np_pi_plus).
  split; [| split; [| split]].
  - rewrite phasor_end_cos_sin, cos_0, sin_0. reflexivity.
  - change (quarter_point k) with
      (match (k mod 4)%Z with
       | 0%Z => (1, 0)
       | 1%Z => (0, 1)
       | 2%Z => (-1, 0)
       | _ => (0, -1)
       end).
    rewrite <- phasor_end_quarter.
    apply phasor_end_within.
    assert (Hk1 : - 1000 <= IZR k <= 1000)
      by (split; apply IZR_le; lia).
    replace (IZR k * (Np.pi / 2) - IZR k * (PI / 2))
      with (IZR k * ((Np.pi - PI) / 2)) by field.
    apply Rabs_le. split; nra.
  - unfold quarter_point.
    assert (Hr : (0 <= k mod 4 < 4)%Z) by (apply Z.mod_pos_bound; lia).
    assert (Hcases : (k mod 4 = 0 \/ k mod 4 = 1 \/ k mod 4 = 2 \/ k mod 4 = 3)%Z)
      by lia.
    destruct Hcases as [E | [E | [E | E]]]; rewrite E; cbn; tauto.
  - assert (Hper : phasor_end theta = phasor_end (theta + 2 * PI)).
    { rewrite !phasor_end_cos_sin.
      destruct (cos_sin_turns theta 1) as [Hc Hs].
      rewrite Rmult_1_r in Hc, Hs.
      now rewrite Hc, Hs. }
    rewrite Hper.
    apply phasor_end_within.
    apply Rabs_le. split; lra.
Qed.

(** One quarter turn and the angle 0. *)
Lemma phasor_end_quarter_turns_within_tolerance_witness :
  (- 1000 <= 1 <= 1000)%Z
  /\ - 1000 <= 0 <= 1000
  /\ within 1e-9 (phasor_end (Np.pi / 2)) (0, 1)
  /\ within 1e-9 (phasor_end (0 + 2 * Np.pi)) (phasor_end 0).
Proof.
  assert (Hk : (- 1000 <= 1 <= 1000)%Z) by lia.
  assert (Ht : - 1000 <= 0 <= 1000) by lra.
  destruct (phasor_end_quarter_turns_within_tolerance 1 0 Hk Ht)
    as (_ & Hq & _ & Hp).
  rewrite Rmult_1_l in Hq.
  split; [exact Hk | split; [exact Ht | split; [exact Hq | exact Hp]]].
Defined.

(** ** Float remainder *)

Lemma floor_div_bounds (a b : R) :
  0 < b ->
  IZR (Zfloor (a / b)) * b <= a < (IZR (Zfloor (a / b)) + 1) * b.
Proof.
  intros Hb.
  destruct (Zfloor_bound (a / b)) as [Hlo Hhi].
  assert (Ha : a = a / b * b) by (field; lra).
  split.
  - rewrite Ha at 2.
    apply Rmult_le_compat_r; lra.
  - rewrite Ha at 1.
    apply Rmult_lt_compat_r; lra.
Qed.

Lemma mod_bounds (a b : R) : 0 < b -> 0 <= Np.mod_ a b < b.
Proof.
  intros Hb; unfold Np.mod_.
  destruct (floor_div_bounds a b Hb); lra.
Qed.

(** A remainder is the dividend shifted by the whole multiple of the
    divisor below it. *)
Lemma mod_shift (a b : R) (n : Z) :
  0 < b ->
  IZR n * b <= a < (IZR n + 1) * b ->
  Np.mod_ a b = a - IZR n * b.
Proof.
  intros Hb [Hlo Hhi]; unfold Np.mod_.
  replace (Zfloor (a / b)) with n; [reflexivity |].
  symmetry; apply Zfloor_eq.
  split.
  - apply Rmult_le_reg_r with b; [lra |].
    replace (a / b * b) with a by (field; lra). lra.
  - apply Rmult_lt_reg_r with b; [lra |].
    replace (a / b * b) with a by (field; lra). lra.
Qed.

Lemma mod_small (a b : R) : 0 <= a < b -> Np.mod_ a b = a.
Proof.
  intros Ha.
  rewrite (mod_shift a b 0); lra.
Qed.

Lemma mod_add_period (a b : R) : 0 < b -> Np.mod_ (a + b) b = Np.mod_ a b.
Proof.
  intros Hb; unfold Np.mod_.
  replace ((a + b) / b) with (a / b + IZR 1) by (field; lra).
  rewrite Zfloor_addz, plus_IZR.
  ring.
Qed.

Lemma two_PI_pos : 0 < 2 * PI.
Proof. generalize PI_RGT_0; lra. Qed.

(** ** Phase colour wheel *)

Lemma interpolate_color_0 (c1 c2 : color) : interpolate_color c1 c2 0 = c1.
Proof.
  destruct c1 as [r1 g1 b1]; unfold interpolate_color; cbn.
  f_equal; ring.
Qed.

Lemma interpolate_color_1 (c1 c2 : color) : interpolate_color c1 c2 1 = c2.
Proof.
  destruct c2 as [r2 g2 b2]; unfold interpolate_color; cbn.
  f_equal; ring.
Qed.

Lemma get_interpolate_color (ch : channel) (c1 c2 : color) (alpha : R) :
  get ch (interpolate_color c1 c2 alpha) =
    (1 - alpha) * get ch c1 + alpha * get ch c2.
Proof. destruct ch; reflexivity. Qed.

Section PhaseColor.

Variables BLUE GREEN RED PURPLE : color.

#[local] Abbreviation phaseColor := (get_current_color BLUE GREEN RED PURPLE).
#[local] Abbreviation phaseColorSpec := (phaseColor_spec BLUE GREEN RED PURPLE).
#[local] Abbreviation anchorAt := (anchor BLUE GREEN RED PURPLE).

(** The function is [interpolate_color] at the anchors and the fraction
    of the branch taken. *)
Lemma get_current_color_branch (theta : R) :
  phaseColor theta =
    interpolate_color
      (fst (current_anchors BLUE GREEN RED PURPLE theta))
      (snd (current_anchors BLUE GREEN RED PURPLE theta))
      (current_fraction theta).
Proof.
  unfold get_current_color, current_anchors, current_fraction; cbv zeta.
  repeat destruct (Rle_dec _ _); reflexivity.
Qed.

Lemma current_fraction_range (theta : R) : 0 <= current_fraction theta <= 1.
Proof.
  unfold current_fraction; cbv zeta.
  destruct (mod_bounds theta (2 * PI) two_PI_pos) as [Hlo Hhi].
  set (r := Np.mod_ theta (2 * PI)) in *.
  assert (Hh : 0 < PI / 2) by apply PI2_RGT_0.
  assert (Hdiv : forall u, 0 <= u <= PI / 2 -> 0 <= u / (PI / 2) <= 1).
  { intros u [Hu0 Hu1]; split.
    - apply Rmult_le_reg_r with (PI / 2); [lra |].
      replace (u / (PI / 2) * (PI / 2)) with u by (field; lra). lra.
    - apply Rmult_le_reg_r with (PI / 2); [lra |].
      replace (u / (PI / 2) * (PI / 2)) with u by (field; lra). lra. }
  repeat destruct (Rle_dec _ _); apply Hdiv; lra.
Qed.

Lemma anchor_values :
  anchorAt 0 = BLUE /\ anchorAt 1 = GREEN /\ anchorAt 2 = RED
  /\ anchorAt 3 = PURPLE /\ anchorAt 4 = BLUE.
Proof. repeat split. Qed.

(** C5: [get_current_color] reduces the angle modulo [2 PI] into
    [[0, 2 PI)], picks the quarter-turn segment [k] in [0..3] of the
    reduced angle and interpolates linearly from anchor [k] to anchor
    [k + 1] (cyclically: segment 3 runs from the fourth anchor back to the
    first) with fraction [(reduced - k * PI/2) / (PI/2)]. *)
Theorem get_current_color_refines_spec (theta : R) :
  let reduced := Np.mod_ theta (2 * PI) in
  let k := Zfloor (reduced / (PI / 2)) in
  0 <= reduced < 2 * PI
  /\ (0 <= k <= 3)%Z
  /\ phaseColor theta =
       interpolate_color (anchorAt k) (anchorAt (k + 1))
         ((reduced - IZR k * (PI / 2)) / (PI / 2))
  /\ phaseColor theta = phaseColorSpec theta.
Proof.
  cbv zeta.
  destruct (mod_bounds theta (2 * PI) two_PI_pos) as [Hlo Hhi].
  assert (Hh : 0 < PI / 2) by apply PI2_RGT_0.
  unfold phaseColor_spec, get_current_color; cbv zeta.
  set (r := Np.mod_ theta (2 * PI)) in *.
  destruct (floor_div_bounds r (PI / 2) Hh) as [Hk1 Hk2].
  set (k := Zfloor (r / (PI / 2))) in *.
  assert (Hk : (0 <= k <= 3)%Z).
  { split.
    - apply Zfloor_lub. cbn.
      apply Rmult_le_reg_r with (PI / 2); [lra |].
      replace (r / (PI / 2) * (PI / 2)) with r by (field; lra). lra.
    - assert (Hlt : IZR k < 4).
      { apply Rmult_lt_reg_r with (PI / 2); lra. }
      apply lt_IZR in Hlt. lia. }
  assert (Hmain :
    (if Rle_dec r (PI / 2)
     then interpolate_color BLUE GREEN (r / (PI / 2))
     else if Rle_dec r PI
     then interpolate_color GREEN RED ((r - PI / 2) / (PI / 2))
     else if Rle_dec r (3 * PI / 2)
     then interpolate_color RED PURPLE ((r - PI) / (PI / 2))
     else interpolate_color PURPLE BLUE ((r - 3 * PI / 2) / (PI / 2)))
    = interpolate_color (anchorAt k) (anchorAt (k + 1))
        ((r - IZR k * (PI / 2)) / (PI / 2))).
  { assert (Hcases : k = 0%Z \/ k = 1%Z \/ k = 2%Z \/ k = 3%Z) by lia.
    assert (Hone : forall u, u = PI / 2 -> u / (PI / 2) = 1)
      by (intros u ->; field; lra).
    assert (Hzero : forall u, u = 0 -> u / (PI / 2) = 0)
      by (intros u ->; field; lra).
    clearbody k r.
    destruct anchor_values as (A0 & A1 & A2 & A3 & A4).
    destruct Hcases as [-> | [-> | [-> | ->]]];
      simpl (_ + 1)%Z; rewrite ?A0, ?A1, ?A2, ?A3, ?A4;
      repeat destruct (Rle_dec _ _); try lra;
      try (f_equal; lra);
      match goal with
      | |- interpolate_color _ _ ?a = interpolate_color _ _ ?b =>
          replace a with 1 by (symmetry; apply Hone; lra);
          replace b with 0 by (symmetry; apply Hzero; lra)
      end;
      now rewrite interpolate_color_0, interpolate_color_1. }
  repeat split; try assumption; try lia.
Qed.


(** *** Values at the quarter turns and periodicity *)

Lemma get_current_color_period (theta : R) :
  phaseColor (theta + 2 * PI) = phaseColor theta.
Proof.
  unfold get_current_color; cbv zeta.
  now rewrite (mod_add_period theta (2 * PI) two_PI_pos).
Qed.

Lemma mod_quarter_turn (k : Z) :
  Np.mod_ (IZR k * (PI / 2)) (2 * PI) = IZR (k mod 4) * (PI / 2).
Proof.
  assert (Hpi := PI_RGT_0).
  assert (Hk : k = (4 * (k / 4) + k mod 4)%Z) by (apply Z.div_mod; lia).
  assert (Hr : (0 <= k mod 4 < 4)%Z) by (apply Z.mod_pos_bound; lia).
  set (r := (k mod 4)%Z) in *.
  set (q := (k / 4)%Z) in *.
  assert (Hr0 : 0 <= IZR r) by (apply IZR_le; lia).
  assert (Hr3 : IZR r <= 3) by (apply IZR_le; lia).
  assert (Ha : IZR k * (PI / 2) = IZR r * (PI / 2) + IZR q * (2 * PI)).
  { rewrite Hk at 1. rewrite plus_IZR, mult_IZR. lra. }
  rewrite (mod_shift _ _ q two_PI_pos).
  - lra.
  - rewrite Ha. split; nra.
Qed.

Lemma get_current_color_quarter_turn (k : Z) :
  phaseColor (IZR k * (PI / 2)) = anchorAt k.
Proof.
  assert (Hpi := PI_RGT_0).
  unfold get_current_color; cbv zeta.
  rewrite mod_quarter_turn.
  unfold anchor.
  assert (Hr : (0 <= k mod 4 < 4)%Z) by (apply Z.mod_pos_bound; lia).
  assert (Hcases : (k mod 4 = 0 \/ k mod 4 = 1 \/ k mod 4 = 2 \/ k mod 4 = 3)%Z)
    by lia.
  destruct Hcases as [E | [E | [E | E]]]; rewrite E;
    repeat destruct (Rle_dec _ _); try lra;
    match goal with
    | |- interpolate_color _ _ ?a = _ =>
        (replace a with 0 by (field_simplify; lra);
         apply interpolate_color_0)
        || (replace a with 1 by (field; lra);
            apply interpolate_color_1)
    end.
Qed.

(** *** Continuity of each channel *)

Lemma clamp01_below (t : R) : t <= 0 -> clamp01 t = 0.
Proof.
  intros Ht; unfold clamp01.
  rewrite (Rabs_left1 t), (Rabs_left1 (t - 1)) by lra. lra.
Qed.

Lemma clamp01_inside (t : R) : 0 <= t <= 1 -> clamp01 t = t.
Proof.
  intros Ht; unfold clamp01.
  rewrite (Rabs_pos_eq t), (Rabs_left1 (t - 1)) by lra. lra.
Qed.

Lemma clamp01_above (t : R) : 1 <= t -> clamp01 t = 1.
Proof.
  intros Ht; unfold clamp01.
  rewrite (Rabs_pos_eq t), (Rabs_pos_eq (t - 1)) by lra. lra.
Qed.

#[local] Abbreviation wheel := (wheel_channel BLUE GREEN RED PURPLE).

Lemma wheel_channel_outside (ch : channel) (r : R) :
  r <= 0 \/ 2 * PI <= r -> wheel ch r = get ch BLUE.
Proof.
  assert (Hh : 0 < PI / 2) by apply PI2_RGT_0.
  intros Hr; unfold wheel_channel; cbv zeta.
  set (t := r / (PI / 2)).
  assert (Ht : r = t * (PI / 2)) by (unfold t; field; lra).
  destruct Hr as [Hr | Hr].
  - assert (t <= 0) by nra.
    rewrite !clamp01_below by lra. ring.
  - assert (4 <= t) by nra.
    rewrite !clamp01_above by lra. ring.
Qed.

(** On a reduced angle the branches of [get_current_color] and the
    closed form give the same channel values. *)
Lemma get_current_color_wheel (ch : channel) (theta : R) :
  get ch (phaseColor theta) = wheel ch (Np.mod_ theta (2 * PI)).
Proof.
  assert (Hh : 0 < PI / 2) by apply PI2_RGT_0.
  destruct (mod_bounds theta (2 * PI) two_PI_pos) as [Hlo Hhi].
  unfold get_current_color, wheel_channel; cbv zeta.
  set (r := Np.mod_ theta (2 * PI)) in *.
  set (t := r / (PI / 2)).
  assert (Ht : r = t * (PI / 2)) by (unfold t; field; lra).
  replace ((r - PI / 2) / (PI / 2)) with (t - 1) by (unfold t; field; lra).
  replace ((r - PI) / (PI / 2)) with (t - 2) by (unfold t; field; lra).
  replace ((r - 3 * PI / 2) / (PI / 2)) with (t - 3) by (unfold t; field; lra).
  assert (Ht0 : 0 <= t) by nra.
  assert (Ht4 : t < 4) by nra.
  clearbody t.
  repeat destruct (Rle_dec _ _); rewrite get_interpolate_color.
  - assert (t <= 1) by nra.
    rewrite (clamp01_inside t), !clamp01_below by lra. ring.
  - assert (1 < t <= 2) by nra.
    rewrite (clamp01_above t), (clamp01_inside (t - 1)), !clamp01_below
      by lra.
    ring.
  - assert (2 < t <= 3) by nra.
    rewrite (clamp01_above t), (clamp01_above (t - 1)),
      (clamp01_inside (t - 2)), clamp01_below by lra.
    ring.
  - assert (3 < t) by nra.
    rewrite (clamp01_above t), (clamp01_above (t - 1)),
      (clamp01_above (t - 2)), (clamp01_inside (t - 3)) by lra.
    ring.
Qed.

Lemma wheel_channel_continuous (ch : channel) (a r0 : R) :
  continuity_pt (fun r => wheel ch (r - a)) r0.
Proof.
  unfold wheel_channel, clamp01; cbv zeta.
  reg.
Qed.

(** Between two whole turns around a turn boundary [n * 2 PI] the
    channel is the sum of the closed forms of the turn below and of the
    turn above, less the first anchor that both count. *)
Lemma get_current_color_local (ch : channel) (n : Z) (theta : R) :
  (IZR n - 1) * (2 * PI) < theta < (IZR n + 1) * (2 * PI) ->
  get ch (phaseColor theta) =
    wheel ch (theta - IZR n * (2 * PI))
    + wheel ch (theta - (IZR n - 1) * (2 * PI))
    - get ch BLUE.
Proof.
  assert (Hpi := PI_RGT_0).
  intros [Hlo Hhi].
  rewrite get_current_color_wheel.
  destruct (Rle_dec (IZR n * (2 * PI)) theta) as [Hge | Hlt].
  - rewrite (mod_shift theta (2 * PI) n two_PI_pos) by lra.
    rewrite (wheel_channel_outside ch (theta - (IZR n - 1) * (2 * PI)))
      by (right; lra).
    ring.
  - rewrite (mod_shift theta (2 * PI) (n - 1) two_PI_pos)
      by (rewrite minus_IZR; lra).
    rewrite minus_IZR.
    rewrite (wheel_channel_outside ch (theta - IZR n * (2 * PI)))
      by (left; lra).
    ring.
Qed.

Lemma get_current_color_continuous (ch : channel) (theta0 : R) :
  continuity_pt (fun theta => get ch (phaseColor theta)) theta0.
Proof.
  assert (Hpi := PI_RGT_0).
  destruct (floor_div_bounds theta0 (2 * PI) two_PI_pos) as [Hlo Hhi].
  set (n := Zfloor (theta0 / (2 * PI))) in *.
  apply (continuity_pt_locally_ext
           (fun theta =>
              wheel ch (theta - IZR n * (2 * PI))
              + wheel ch (theta - (IZR n - 1) * (2 * PI))
              - get ch BLUE)
           _ ((IZR n + 1) * (2 * PI) - theta0)).
  - lra.
  - intros y Hy.
    symmetry; apply get_current_color_local.
    unfold Rdist in Hy.
    apply Rabs_def2 in Hy. lra.
  - apply continuity_pt_minus; [apply continuity_pt_plus |].
    + apply wheel_channel_continuous.
    + apply wheel_channel_continuous.
    + apply continuity_pt_const. intros u v; reflexivity.
Qed.

(** C6: at the segment boundaries the wheel returns the anchors exactly
    (at every integer multiple [k] of [PI / 2] it is anchor [k mod 4]; in
    particular the first anchor at [0] and the second at [PI / 2]); it
    takes the same value at [2 PI] as at [0] and has period [2 PI]; the
    last branch at fraction 1 and the first branch at fraction 0 agree;
    and every channel is continuous at every multiple of [PI / 2]. *)
Theorem get_current_color_boundaries_period_continuity :
  phaseColor 0 = BLUE
  /\ phaseColor (PI / 2) = GREEN
  /\ phaseColor (2 * PI) = phaseColor 0
  /\ (forall k : Z, phaseColor (IZR k * (PI / 2)) = anchorAt k)
  /\ (forall theta : R, phaseColor (theta + 2 * PI) = phaseColor theta)
  /\ interpolate_color PURPLE BLUE 1 = interpolate_color BLUE GREEN 0
  /\ (forall (ch : channel) (k : Z),
        continuity_pt (fun theta => get ch (phaseColor theta))
          (IZR k * (PI / 2))).
Proof.
  assert (H0 : phaseColor 0 = BLUE).
  { replace 0 with (IZR 0 * (PI / 2)) by lra.
    apply get_current_color_quarter_turn. }
  assert (H1 : phaseColor (PI / 2) = GREEN).
  { replace (PI / 2) with (IZR 1 * (PI / 2)) by lra.
    apply get_current_color_quarter_turn. }
  repeat split.
  - exact H0.
  - exact H1.
  - replace (2 * PI) with (0 + 2 * PI) by lra.
    apply get_current_color_period.
  - apply get_current_color_quarter_turn.
  - apply get_current_color_period.
  - now rewrite interpolate_color_0, interpolate_color_1.
  - intros ch k. apply get_current_color_continuous.
Qed.

(** C9: the helpers return a value on their documented domains.  With a
    base [base > 0] both read-outs of the exponential evaluator are
    numbers; the slope angle and the phasor end point are defined at every
    real argument; the reduced angle of the wheel lies in [[0, 2 PI)] also
    for a negative angle, so that one of the four branches fits it; and
    the fraction handed to [interpolate_color] lies in [[0, 1]]. *)
Theorem helpers_total_on_documented_domains
    (base x theta : R) (f : R -> R) (Hbase : 0 < base) :
  (exists v d : R, expValueAndDerivative base x = Some (v, d))
  /\ (exists angle : R, get_slope_angle f theta = angle)
  /\ (exists re im : R, phasor_end theta = (re, im))
  /\ 0 <= Np.mod_ theta (2 * PI) < 2 * PI
  /\ phaseColor theta =
       interpolate_color
         (fst (current_anchors BLUE GREEN RED PURPLE theta))
         (snd (current_anchors BLUE GREEN RED PURPLE theta))
         (current_fraction theta)
  /\ List.In (current_anchors BLUE GREEN RED PURPLE theta)
       ((BLUE, GREEN) :: (GREEN, RED) :: (RED, PURPLE) :: (PURPLE, BLUE)
          :: nil)
  /\ 0 <= current_fraction theta <= 1.
Proof.
  split; [| split; [| split; [| split; [| split; [| split]]]]].
  - exists (Rpower base x), (ln base * Rpower base x).
    now apply expValueAndDerivative_pos.
  - eexists; reflexivity.
  - exists (cos theta), (sin theta). apply phasor_end_cos_sin.
  - apply mod_bounds, two_PI_pos.
  - apply get_current_color_branch.
  - unfold current_anchors; cbv zeta.
    repeat destruct (Rle_dec _ _); cbn; tauto.
  - apply current_fraction_range.
Qed.

End PhaseColor.

(** A negative angle and base 2, with a palette of pure colours. *)
Lemma helpers_total_on_documented_domains_witness :
  0 < 2
  /\ (exists v d : R, expValueAndDerivative 2 0 = Some (v, d))
  /\ 0 <= Np.mod_ (- 1) (2 * PI) < 2 * PI
  /\ 0 <= current_fraction (- 1) <= 1.
Proof.
  assert (H2 : 0 < 2) by lra.
  destruct (helpers_total_on_documented_domains
              (RGB 0 0 1) (RGB 0 1 0) (RGB 1 0 0) (RGB (1 / 2) 0 (1 / 2))
              2 0 (- 1) (fun y => y) H2)
    as (Hv & _ & _ & Hm & _ & _ & Hf).
  exact (conj H2 (conj Hv (conj Hm Hf))).
Defined.

(** ** Finite-difference slope against the analytic derivative *)

(** *** Elementary bounds on [exp], [ln 2] and [atan] *)

Lemma exp_eighth (u : R) : exp u = exp (u / 8) ^ 8.
Proof.
  replace u with
    (u / 8 + (u / 8 + (u / 8 + (u / 8 + (u / 8 + (u / 8 + (u / 8 + u / 8)))))))
    at 1 by field.
  rewrite !exp_plus. ring.
Qed.

Lemma exp_lower_pow8 (u : R) : - 8 <= u -> (1 + u / 8) ^ 8 <= exp u.
Proof.
  intros Hu.
  rewrite (exp_eighth u).
  apply pow_incr; split; [lra |].
  generalize (exp_ineq1_le (u / 8)); lra.
Qed.

Lemma exp_upper_inv (u : R) : u < 1 -> exp u * (1 - u) <= 1.
Proof.
  intros Hu.
  assert (Hm : 1 - u <= exp (- u)) by (generalize (exp_ineq1_le (- u)); lra).
  assert (Hp : 0 < exp u) by apply exp_pos.
  assert (Hone : exp u * exp (- u) = 1).
  { rewrite <- exp_plus, Rplus_opp_r. apply exp_0. }
  rewrite <- Hone.
  apply Rmult_le_compat_l; lra.
Qed.

Lemma exp_upper_pow8 (u : R) : u < 8 -> exp u * (1 - u / 8) ^ 8 <= 1.
Proof.
  intros Hu.
  rewrite (exp_eighth u), <- Rpow_mult_distr.
  apply Rle_trans with (1 ^ 8); [| rewrite pow1; lra].
  apply pow_incr; split.
  - apply Rmult_le_pos; [left; apply exp_pos | lra].
  - apply exp_upper_inv; lra.
Qed.

(** The quadratic Taylor bound up to the factor 7/8 that eight-fold
    squaring loses. *)
Lemma exp_lower_quadratic (u : R) : 0 <= u -> 1 + u + 7 / 16 * u ^ 2 <= exp u.
Proof.
  intros Hu.
  apply Rle_trans with ((1 + u / 8) ^ 8); [| apply exp_lower_pow8; lra].
  set (v := u / 8).
  assert (Hv : 0 <= v) by (unfold v; lra).
  replace u with (8 * v) by (unfold v; field).
  assert (H3 := pow_le v 3 Hv).
  assert (H4 := pow_le v 4 Hv).
  assert (H5 := pow_le v 5 Hv).
  assert (H6 := pow_le v 6 Hv).
  assert (H7 := pow_le v 7 Hv).
  assert (H8 := pow_le v 8 Hv).
  replace ((1 + v) ^ 8) with
    (1 + 8 * v + 28 * v ^ 2 + 56 * v ^ 3 + 70 * v ^ 4 + 56 * v ^ 5
     + 28 * v ^ 6 + 8 * v ^ 7 + v ^ 8) by ring.
  replace (7 / 16 * (8 * v) ^ 2) with (28 * v ^ 2) by field.
  lra.
Qed.

Lemma ln_2_bounds : 13 / 20 <= ln 2 <= 3 / 4.
Proof.
  split.
  - rewrite <- (ln_exp (13 / 20)).
    assert (Hexp : exp (13 / 20) <= 2).
    { generalize (exp_upper_pow8 (13 / 20) ltac:(lra)).
      generalize (exp_pos (13 / 20)).
      replace ((1 - 13 / 20 / 8) ^ 8) with ((147 / 160) ^ 8) by (f_equal; field).
      intros Hp H.
      assert (Hc : / 2 <= (147 / 160) ^ 8) by lra.
      nra. }
    destruct Hexp as [Hlt | Heq].
    + left. apply ln_increasing; [apply exp_pos | exact Hlt].
    + rewrite Heq. right; reflexivity.
  - rewrite <- (ln_exp (3 / 4)).
    assert (Hexp : 2 <= exp (3 / 4)).
    { generalize (exp_lower_pow8 (3 / 4) ltac:(lra)).
      replace ((1 + 3 / 4 / 8) ^ 8) with ((35 / 32) ^ 8) by (f_equal; field).
      intros H.
      assert (Hc : 2 <= (35 / 32) ^ 8) by lra.
      lra. }
    destruct Hexp as [Hlt | Heq].
    + left. apply ln_increasing; [lra | exact Hlt].
    + rewrite <- Heq. right; reflexivity.
Qed.

(** Mean value form of a difference of arctangents. *)
Lemma atan_mean_value (a b : R) :
  a < b ->
  exists c : R, a < c < b /\ (atan b - atan a) * (1 + c ^ 2) = b - a.
Proof.
  intros Hab.
  destruct (MVT_cor2 atan (fun c => / (1 + c ^ 2)) a b Hab) as (c & Hc & Hin).
  - intros c _. apply derivable_pt_lim_atan.
  - exists c; split; [exact Hin |].
    rewrite Hc.
    field.
    generalize (pow2_ge_0 c); lra.
Qed.

(** *** A base at which the two angles are more than 1e-4 apart *)

Lemma Rpower_two_1000 (y : R) : Rpower (2 ^ 1000) y = exp (1000 * ln 2 * y).
Proof.
  unfold Rpower.
  rewrite ln_pow by lra.
  rewrite INR_IZR_INZ.
  change (Z.of_nat 1000) with 1000%Z.
  f_equal; ring.
Qed.

Lemma exp_10_ln_2 : exp (10 * ln 2) = 1024.
Proof.
  change (exp (10 * ln 2)) with (Rpower 2 10).
  replace 10 with (INR 10) by (rewrite INR_IZR_INZ; reflexivity).
  rewrite Rpower_pow by lra.
  lra.
Qed.

Lemma Rpower_two_1000_at_x : Rpower (2 ^ 1000) (- (1 / 100)) = 1 / 1024.
Proof.
  rewrite Rpower_two_1000.
  replace (1000 * ln 2 * - (1 / 100)) with (- (10 * ln 2)) by field.
  rewrite exp_Ropp, exp_10_ln_2. lra.
Qed.

Lemma Rpower_two_1000_at_x_plus_h :
  Rpower (2 ^ 1000) (- (1 / 100) + 1e-6) = 1 / 1024 * exp (ln 2 / 1000).
Proof.
  rewrite Rpower_two_1000.
  replace (1000 * ln 2 * (- (1 / 100) + 1e-6))
    with (- (10 * ln 2) + ln 2 / 1000) by lra.
  rewrite exp_plus, exp_Ropp, exp_10_ln_2. lra.
Qed.

Lemma slope_angle_gap_at_two_1000 :
  1e-4 <
    get_slope_angle (fun y => Rpower (2 ^ 1000) y) (- (1 / 100))
    - atan (ln (2 ^ 1000) * Rpower (2 ^ 1000) (- (1 / 100))).
Proof.
  unfold get_slope_angle; cbv zeta.
  rewrite Rpower_two_1000_at_x_plus_h, Rpower_two_1000_at_x.
  rewrite ln_pow by lra.
  rewrite INR_IZR_INZ.
  change (Z.of_nat 1000) with 1000%Z.
  destruct ln_2_bounds as [Hl1 Hl2].
  set (l := ln 2) in *.
  assert (He1 := exp_lower_quadratic (l / 1000) ltac:(lra)).
  assert (He2 := exp_upper_inv (l / 1000) ltac:(lra)).
  assert (He0 := exp_pos (l / 1000)).
  set (e := exp (l / 1000)) in *.
  set (s1 := (1 / 1024 * e - 1 / 1024) / 1e-6).
  set (s2 := 1000 * l * (1 / 1024)).
  assert (Hgap : 7 / 16 * (13 / 20) ^ 2 / 1024 <= s1 - s2).
  { unfold s1, s2.
    assert (Hsq : (13 / 20) ^ 2 <= l ^ 2) by (apply pow_incr; lra).
    lra. }
  assert (Hs2 : 0 < s2) by (unfold s2; lra).
  assert (Hs1 : s1 <= 734 / 1000).
  { unfold s1.
    assert (e * (99925 / 100000) <= 1) by nra.
    lra. }
  destruct (atan_mean_value s2 s1 ltac:(lra)) as (c & [Hc1 Hc2] & Hmv).
  set (D := atan s1 - atan s2) in *.
  assert (Hc : 1 + c ^ 2 < 154 / 100) by nra.
  assert (Hc0 : 1 <= 1 + c ^ 2) by (generalize (pow2_ge_0 c); lra).
  assert (HD : 18 / 100000 <= D * (1 + c ^ 2)) by lra.
  clearbody D.
  nra.
Qed.

Lemma slope_angle_agrees_inv (base x : R) :
  0 < base ->
  slope_angle_agrees base x ->
  Rabs (get_slope_angle (fun y => Rpower base y) x
        - atan (ln base * Rpower base x)) < 1e-4.
Proof.
  intros Hpos (f & v & d & Hf & Hvd & Hlt).
  rewrite expValueAndDerivative_pos in Hvd by assumption.
  injection Hvd as _ <-.
  assert (Hfy : forall y, f y = Rpower base y).
  { intros y. specialize (Hf y).
    rewrite np_power_pos in Hf by assumption.
    now injection Hf. }
  unfold get_slope_angle in *; cbv zeta in *.
  now rewrite !Hfy in Hlt.
Qed.

(** C4, as stated: at [base = 2 ** 1000] (a finite double) and
    [x = -0.01] the two angles are more than 1e-4 apart, so the agreement
    does not hold for every base. *)
Lemma slope_angle_agrees_fails_at_two_1000 :
  ~ slope_angle_agrees (2 ^ 1000) (- (1 / 100)).
Proof.
  intros H.
  apply slope_angle_agrees_inv in H; [| apply pow_lt; lra].
  generalize slope_angle_gap_at_two_1000.
  apply Rabs_def2 in H. lra.
Qed.

(** *** Bases between [exp (-100)] and [exp 100] *)

Lemma ln_le_mono (a b : R) : 0 < a -> a <= b -> ln a <= ln b.
Proof.
  intros Ha [Hlt | ->].
  - left; now apply ln_increasing.
  - right; reflexivity.
Qed.

(** The heart of the estimate, on the numbers alone: [t] is [base ** x],
    [L] is [ln base], [e] is [exp (1e-6 * L)] and [c] a mean-value point
    between the analytic slope [L * t] and the finite-difference one. *)
Lemma slope_gap_estimate (t L e c : R) :
  0 < t ->
  - 100 <= L <= 100 ->
  1 + 1e-6 * L <= e ->
  e * (1 - 1e-6 * L) <= 1 ->
  L * t < c < (t * e - t) / 1e-6 ->
  (t * e - t) / 1e-6 - L * t < 1e-4 * (1 + c ^ 2).
Proof.
  intros Ht HL He1 He2 [Hc1 Hc2].
  set (u := 1e-6 * L) in *.
  assert (Hu : - 1e-4 <= u <= 1e-4) by (unfold u; lra).
  set (s2 := L * t) in *.
  set (g := (t * e - t) / 1e-6 - s2).
  assert (Hg : g = 1000000 * t * (e - 1 - u)) by (unfold g, s2, u; lra).
  assert (Hs1 : (t * e - t) / 1e-6 = s2 + g) by (unfold g; lra).
  rewrite Hs1 in Hc2.
  assert (HE : (e - 1 - u) * (1 - u) <= u * u) by nra.
  assert (Hgu : g * (1 - u) <= s2 * u).
  { rewrite Hg.
    replace (s2 * u) with (1000000 * t * (u * u)) by (unfold s2, u; lra).
    replace (1000000 * t * (e - 1 - u) * (1 - u))
      with (1000000 * t * ((e - 1 - u) * (1 - u))) by ring.
    apply Rmult_le_compat_l; [lra | exact HE]. }
  assert (Hg0 : 0 <= g) by (rewrite Hg; apply Rmult_le_pos; lra).
  fold g.
  destruct (Rle_dec 0 L) as [HLpos | HLneg].
  - assert (Hs2 : 0 <= s2) by (unfold s2; nra).
    assert (Hu0 : 0 <= u) by (unfold u; lra).
    clearbody g s2 u.
    assert (Hg1 : g * (9999 / 10000) <= s2 * (1 / 10000)) by nra.
    assert (Hcc : s2 * s2 < c * c) by nra.
    assert (Hsq := Rle_0_sqr (s2 - 1)); unfold Rsqr in Hsq.
    nra.
  - assert (Hs2 : s2 < 0) by (unfold s2; nra).
    assert (Hu0 : u <= 0) by (unfold u; lra).
    clearbody g s2 u.
    assert (Hg1 : g <= - s2 * (1 / 10000)) by nra.
    assert (Hc0 : c < 9999 / 10000 * s2) by lra.
    assert (Hcc : (9999 / 10000 * s2) * (9999 / 10000 * s2) < c * c) by nra.
    assert (Hsq := Rle_0_sqr (s2 + 1)); unfold Rsqr in Hsq.
    nra.
Qed.

(** C4, amended: for a base between [exp (-100)] and [exp 100] and an
    [x] between -4 and 4 (the scenes plot within [-3, 3.5]), the angle of
    the finite-difference slope of [base ** x] and the arctangent of the
    analytic derivative differ by less than 1e-4.  The estimate itself
    does not use the bound on [x]; the bound keeps [x + 1e-6] and
    [base ** x] where doubles follow the real numbers closely. *)
Theorem slope_angle_agrees_moderate_base
    (base x : R) (Hbase : exp (- 100) <= base <= exp 100)
    (Hx : - 4 <= x <= 4) :
  slope_angle_agrees base x.
Proof.
  destruct Hbase as [Hlo Hhi].
  assert (Hpos : 0 < base) by (generalize (exp_pos (- 100)); lra).
  assert (HL : - 100 <= ln base <= 100).
  { split.
    - rewrite <- (ln_exp (- 100)). apply ln_le_mono; [apply exp_pos | exact Hlo].
    - rewrite <- (ln_exp 100). now apply ln_le_mono. }
  exists (fun y => Rpower base y), (Rpower base x), (ln base * Rpower base x).
  split; [intros y; now apply np_power_pos |].
  split; [now apply expValueAndDerivative_pos |].
  unfold get_slope_angle; cbv zeta.
  rewrite Rpower_plus.
  replace (Rpower base 1e-6) with (exp (1e-6 * ln base)) by reflexivity.
  assert (Ht : 0 < Rpower base x) by apply exp_pos.
  set (t := Rpower base x) in *.
  set (L := ln base) in *.
  assert (He1 := exp_ineq1_le (1e-6 * L)).
  assert (He2 := exp_upper_inv (1e-6 * L) ltac:(lra)).
  set (e := exp (1e-6 * L)) in *.
  set (s1 := (t * e - t) / 1e-6).
  set (s2 := L * t).
  assert (Hle : s2 <= s1).
  { unfold s1, s2.
    assert (0 <= 1000000 * t * (e - 1 - 1e-6 * L))
      by (apply Rmult_le_pos; lra).
    lra. }
  destruct Hle as [Hlt | Heq].
  - destruct (atan_mean_value s2 s1 Hlt) as (c & Hc & Hmv).
    assert (Hest := slope_gap_estimate t L e c Ht HL He1 He2 Hc).
    fold s1 s2 in Hest.
    assert (Hc0 : 1 <= 1 + c ^ 2) by (generalize (pow2_ge_0 c); lra).
    set (D := atan s1 - atan s2) in *.
    assert (HD0 : 0 <= D) by nra.
    rewrite Rabs_pos_eq by assumption.
    clearbody D. nra.
  - rewrite Heq, Rminus_diag, Rabs_R0. lra.
Qed.

(** Base 2 lies between [exp (-100)] and [exp 100], and 0 between -4
    and 4. *)
Lemma slope_angle_agrees_moderate_base_witness :
  exp (- 100) <= 2 <= exp 100 /\ - 4 <= 0 <= 4 /\ slope_angle_agrees 2 0.
Proof.
  assert (H : exp (- 100) <= 2 <= exp 100).
  { split.
    - generalize (exp_increasing (- 100) 0 ltac:(lra)). rewrite exp_0. lra.
    - generalize (exp_ineq1_le 100). lra. }
  assert (Hx : - 4 <= 0 <= 4) by lra.
  split; [exact H | split; [exact Hx |]].
  exact (slope_angle_agrees_moderate_base 2 0 H Hx).
Defined.

(** * Further properties of the scenes *)

(** The rise of the vertical side of the slope triangle and its foot. *)
Lemma get_slope_line1_rise_lemma (f : R -> R) (x : R) :
  snd (snd (get_slope_line1 f x)) - snd (fst (get_slope_line1 f x))
    = (f (x + 1e-6) - f x) / 1e-6
  /\ fst (get_slope_line1 f x) = (x + 1, f x).
Proof.
  unfold get_slope_line1, get_slope_angle; cbn [fst snd].
  rewrite tan_atan.
  split; [ring | reflexivity].
Qed.

(** ** 01: tangent segment, slope triangle and its labels *)

Section TangentAndTriangle.

Variable f : R -> R.
Variable x : R.

#[local] Abbreviation slope := ((f (x + 1e-6) - f x) / 1e-6).

Lemma cos_slope_angle_pos : 0 < cos (get_slope_angle f x).
Proof.
  unfold get_slope_angle; cbv zeta.
  destruct (atan_bound slope) as [Hlo Hhi].
  apply cos_gt_0; lra.
Qed.

Lemma sin_slope_angle :
  sin (get_slope_angle f x) = slope * cos (get_slope_angle f x).
Proof.
  assert (Hc := cos_slope_angle_pos).
  assert (Ht : tan (get_slope_angle f x) = slope)
    by (unfold get_slope_angle; cbv zeta; apply tan_atan).
  unfold tan in Ht.
  rewrite <- Ht. field. lra.
Qed.

(** X1: The tangent segment is centred at the point of tangency [(x, f x)]
    and its Euclidean length, in axis units, is [|length|]. *)
Theorem get_tangent_line_centre_and_length (length : R) :
  let start := fst (get_tangent_line f x length) in
  let end_ := snd (get_tangent_line f x length) in
  (fst start + fst end_) / 2 = x
  /\ (snd start + snd end_) / 2 = f x
  /\ sqrt (Rsqr (fst end_ - fst start) + Rsqr (snd end_ - snd start))
     = Rabs length.
Proof.
  cbv zeta. unfold get_tangent_line; cbn [fst snd].
  set (a := get_slope_angle f x).
  repeat split; try field.
  rewrite <- sqrt_Rsqr_abs.
  f_equal.
  generalize (sin2_cos2 a). unfold Rsqr. nra.
Qed.

(** X2: With a positive [length] the tangent segment runs from left to right
    (it is never vertical) and its rise over run is exactly the forward
    finite-difference slope. *)
Theorem get_tangent_line_slope (length : R) (Hlen : 0 < length) :
  let start := fst (get_tangent_line f x length) in
  let end_ := snd (get_tangent_line f x length) in
  fst start < fst end_
  /\ snd end_ - snd start = slope * (fst end_ - fst start).
Proof.
  cbv zeta. unfold get_tangent_line; cbn [fst snd].
  assert (Hc := cos_slope_angle_pos).
  rewrite sin_slope_angle.
  set (c := cos (get_slope_angle f x)) in *.
  split; [nra | ring].
Qed.

(** X3: The slope triangle closes: the horizontal side starts at the point of
    tangency and ends where the vertical side starts, one unit to the
    right; the vertical side is vertical; and its upper end lies on the
    line through the two ends of the tangent segment. *)
Theorem slope_triangle_closes (length : R) :
  let run := get_slope_line2 f x in
  let rise := get_slope_line1 f x in
  let start := fst (get_tangent_line f x length) in
  let end_ := snd (get_tangent_line f x length) in
  fst run = (x, f x)
  /\ snd run = fst rise
  /\ snd run = (x + 1, f x)
  /\ fst (fst rise) = fst (snd rise)
  /\ (fst (snd rise) - fst start) * (snd end_ - snd start)
     = (snd (snd rise) - snd start) * (fst end_ - fst start).
Proof.
  cbv zeta.
  unfold get_slope_line2, get_slope_line1, get_tangent_line; cbn [fst snd].
  repeat split.
  assert (Ht : tan (get_slope_angle f x) = slope)
    by (unfold get_slope_angle; cbv zeta; apply tan_atan).
  rewrite Ht, sin_slope_angle.
  ring.
Qed.

(** X4: The upper end of the vertical side lies within the drawn tangent
    segment exactly when [1 + slope^2 <= (length / 2)^2]; on steeper
    slopes the triangle reaches beyond the segment. *)
Theorem slope_triangle_within_tangent (length : R) (Hlen : 0 < length) :
  fst (snd (get_slope_line1 f x)) <= fst (snd (get_tangent_line f x length))
  <-> 1 + slope ^ 2 <= (length / 2) ^ 2.
Proof.
  unfold get_slope_line1, get_tangent_line; cbn [fst snd].
  unfold get_slope_angle; cbv zeta.
  rewrite cos_atan.
  assert (Hpos : 0 < 1 + Rsqr slope)
    by (generalize (Rle_0_sqr slope); lra).
  assert (Hs : 0 < sqrt (1 + Rsqr slope)) by now apply sqrt_lt_R0.
  assert (Hsq : sqrt (1 + Rsqr slope) * sqrt (1 + Rsqr slope) = 1 + slope ^ 2).
  { rewrite sqrt_sqrt by lra. unfold Rsqr. ring. }
  set (r := sqrt (1 + Rsqr slope)) in *.
  assert (Heq : length / 2 * (1 / r) = length / 2 / r) by (field; lra).
  rewrite Heq.
  split; intros H.
  - assert (Hr : r <= length / 2).
    { apply Rmult_le_reg_r with (/ r); [apply Rinv_0_lt_compat; lra |].
      rewrite Rinv_r by lra.
      unfold Rdiv in H. lra. }
    rewrite <- Hsq. nra.
  - assert (Hr : r <= length / 2) by nra.
    assert (1 <= length / 2 / r); [| lra].
    apply Rmult_le_reg_r with r; [lra |].
    replace (length / 2 / r * r) with (length / 2) by (field; lra).
    lra.
Qed.

End TangentAndTriangle.

Lemma get_tangent_line_slope_witness :
  0 < default_length
  /\ fst (fst (get_tangent_line (fun y => 2 * y) 0 default_length))
     < fst (snd (get_tangent_line (fun y => 2 * y) 0 default_length)).
Proof.
  assert (H : 0 < default_length) by (unfold default_length; lra).
  split; [exact H |].
  exact (proj1 (get_tangent_line_slope (fun y => 2 * y) 0 default_length H)).
Defined.

Lemma slope_triangle_within_tangent_witness :
  0 < default_length
  /\ (fst (snd (get_slope_line1 (fun y => 2 * y) 0))
      <= fst (snd (get_tangent_line (fun y => 2 * y) 0 default_length))
      <-> 1 + ((2 * (0 + 1e-6) - 2 * 0) / 1e-6) ^ 2
          <= (default_length / 2) ^ 2).
Proof.
  assert (H : 0 < default_length) by (unfold default_length; lra).
  split; [exact H |].
  exact (slope_triangle_within_tangent (fun y => 2 * y) 0 default_length H).
Defined.

Section SlopeLabels.

Variable point : Type.
Variable c2p : R * R -> point.
Variable p2c : point -> R * R.

(** [ax.p2c] undoes [ax.c2p]. *)
Hypothesis p2c_c2p : forall q : R * R, p2c (c2p q) = q.

Variable f : R -> R.
Variable x : R.

(** X6: The rise label of the slope triangle shows the absolute value of the
    forward finite-difference slope (the sign of a falling slope is lost)
    and the run label shows 1. *)
Theorem slope_labels :
  label1 point c2p p2c f x = Rabs ((f (x + 1e-6) - f x) / 1e-6)
  /\ label2 point c2p p2c f x = 1.
Proof.
  unfold label1, label2, print_label1, print_label2, line_of.
  cbn [fst snd].
  rewrite !p2c_c2p.
  destruct (get_slope_line1_rise_lemma f x) as [Hrise _].
  split.
  - now rewrite Hrise.
  - unfold get_slope_line2; cbn [fst snd].
    replace (x + 1 - x) with 1 by ring.
    apply Rabs_R1.
Qed.

End SlopeLabels.

(** Axes that scale and shift: twice the abscissa plus one, three times
    the ordinate minus one. *)
Lemma slope_labels_witness :
  label1 (R * R)
    (fun q => (2 * fst q + 1, 3 * snd q - 1))
    (fun p => ((fst p - 1) / 2, (snd p + 1) / 3))
    (fun y => - y) 0
  = Rabs ((- (0 + 1e-6) - - 0) / 1e-6).
Proof.
  refine (proj1 (slope_labels (R * R)
            (fun q => (2 * fst q + 1, 3 * snd q - 1))
            (fun p => ((fst p - 1) / 2, (snd p + 1) / 3))
            _ (fun y => - y) 0)).
  intros [u v]; cbn [fst snd].
  f_equal; field.
Defined.

(** ** 01 and 02: the finite difference of an exponential *)

Lemma power_function_eq (base : R) (f : R -> R) :
  0 < base ->
  (forall y : R, Np.power base y = Some (f y)) ->
  forall y : R, f y = Rpower base y.
Proof.
  intros Hpos Hf y.
  specialize (Hf y).
  rewrite np_power_pos in Hf by assumption.
  now injection Hf.
Qed.

(** The estimate on the real numbers: with [ln base] between -2 and 2
    the forward difference of [base ** x] lies above the analytic slope
    by at most five millionths of [base ** x]. *)
Lemma forward_difference_estimate
    (base x : R) (f : R -> R)
    (Hbase : exp (- 2) <= base <= exp 2)
    (Hf : forall y : R, Np.power base y = Some (f y)) :
  exists d : R,
    get_slope (Trackers base x) = Some d
    /\ d <= (f (x + 1e-6) - f x) / 1e-6
    /\ (f (x + 1e-6) - f x) / 1e-6 - d <= 5e-6 * f x.
Proof.
  destruct Hbase as [Hlo Hhi].
  assert (Hpos : 0 < base) by (generalize (exp_pos (- 2)); lra).
  assert (HL : - 2 <= ln base <= 2).
  { split.
    - rewrite <- (ln_exp (- 2)). apply ln_le_mono; [apply exp_pos | exact Hlo].
    - rewrite <- (ln_exp 2). now apply ln_le_mono. }
  exists (ln base * Rpower base x).
  split; [now apply get_slope_pos |].
  rewrite !(power_function_eq base f Hpos Hf).
  rewrite Rpower_plus.
  replace (Rpower base 1e-6) with (exp (1e-6 * ln base)) by reflexivity.
  assert (Ht : 0 < Rpower base x) by apply exp_pos.
  set (t := Rpower base x) in *.
  set (L := ln base) in *.
  assert (He1 := exp_ineq1_le (1e-6 * L)).
  assert (He2 := exp_upper_inv (1e-6 * L) ltac:(lra)).
  set (e := exp (1e-6 * L)) in *.
  set (u := 1e-6 * L) in *.
  assert (Hu : - 2e-6 <= u <= 2e-6) by (unfold u; lra).
  assert (Hg : (t * e - t) / 1e-6 - L * t = 1000000 * t * (e - 1 - u))
    by (unfold u; lra).
  assert (HE : (e - 1 - u) * (1 - u) <= u * u) by nra.
  assert (HE0 : 0 <= e - 1 - u) by lra.
  assert (HE1 : e - 1 - u <= 4.1e-12).
  { assert (u * u <= 4e-12) by nra.
    nra. }
  split.
  - assert (0 <= 1000000 * t * (e - 1 - u)) by (apply Rmult_le_pos; lra).
    lra.
  - rewrite Hg.
    clearbody e u t. nra.
Qed.

(** X7: For a base between 2 and 3 (the bases of the first scene) and [x]
    in the plotted range [-2.5, 3.5], the forward difference of
    [base ** x] does not lie below the analytic slope [ln base * base ** x]
    that the second scene computes, and exceeds it by at most five
    millionths of [base ** x]. *)
Theorem forward_difference_of_exponential
    (base x : R) (f : R -> R)
    (Hbase : 2 <= base <= 3)
    (Hx : fst default_x_range <= x <= snd default_x_range)
    (Hf : forall y : R, Np.power base y = Some (f y)) :
  exists d : R,
    get_slope (Trackers base x) = Some d
    /\ d <= (f (x + 1e-6) - f x) / 1e-6
    /\ (f (x + 1e-6) - f x) / 1e-6 - d <= 5e-6 * f x.
Proof.
  apply forward_difference_estimate; [| exact Hf].
  split.
  - generalize (exp_increasing (- 2) 0 ltac:(lra)). rewrite exp_0. lra.
  - generalize (exp_ineq1_le 2). lra.
Qed.

(** Base 3, the steeper function of the first scene, at [x = 1]. *)
Lemma forward_difference_of_exponential_witness :
  2 <= 3 <= 3
  /\ fst default_x_range <= 1 <= snd default_x_range
  /\ exists d : R,
       get_slope (Trackers 3 1) = Some d
       /\ d <= (Rpower 3 (1 + 1e-6) - Rpower 3 1) / 1e-6.
Proof.
  assert (H : 2 <= 3 <= 3) by lra.
  assert (Hx : fst default_x_range <= 1 <= snd default_x_range)
    by (unfold default_x_range; cbn [fst snd]; lra).
  split; [exact H | split; [exact Hx |]].
  destruct (forward_difference_of_exponential 3 1 (fun y => Rpower 3 y) H Hx
              (fun y => np_power_pos 3 y ltac:(lra)))
    as (d & Hd & Hle & _).
  exists d. split; assumption.
Defined.

(** ** 02: value against slope, the status text and the tangent *)

Lemma ln_lt_1_iff (a : R) : 0 < a -> (ln a < 1 <-> a < exp 1).
Proof.
  intros Ha.
  rewrite <- (ln_exp 1) at 1.
  split; intros H.
  - apply ln_lt_inv; [assumption | apply exp_pos | exact H].
  - now apply ln_increasing.
Qed.

Lemma ln_gt_1_iff (a : R) : 0 < a -> (1 < ln a <-> exp 1 < a).
Proof.
  intros Ha.
  rewrite <- (ln_exp 1) at 1.
  split; intros H.
  - apply ln_lt_inv; [apply exp_pos | assumption | exact H].
  - apply ln_increasing; [apply exp_pos | exact H].
Qed.

Lemma ln_eq_1_iff (a : R) : 0 < a -> (ln a = 1 <-> a = exp 1).
Proof.
  intros Ha; split; intros H.
  - rewrite <- (exp_ln a Ha). now rewrite H.
  - rewrite H. apply ln_exp.
Qed.

(** The read-outs at a positive base, and when they coincide. *)
Lemma slope_against_value_lemma (s : trackers) :
  0 < a_tracker s ->
  get_val s = Some (Rpower (a_tracker s) (x_tracker s))
  /\ get_slope s
     = Some (ln (a_tracker s) * Rpower (a_tracker s) (x_tracker s))
  /\ 0 < Rpower (a_tracker s) (x_tracker s)
  /\ (ln (a_tracker s) * Rpower (a_tracker s) (x_tracker s)
      = Rpower (a_tracker s) (x_tracker s)
      <-> a_tracker s = exp 1).
Proof.
  intros Ha.
  destruct s as [a x]; cbn [a_tracker x_tracker] in *.
  assert (Hv : 0 < Rpower a x) by apply exp_pos.
  split; [now apply get_val_pos |].
  split; [now apply get_slope_pos |].
  split; [exact Hv |].
  rewrite <- (ln_eq_1_iff a Ha).
  split; intros H; nra.
Qed.

(** X8: With a positive base the slope read-out is below, equal to or above
    the value read-out according to whether the base is below, equal to or
    above [e], whatever [x] is. *)
Theorem slope_against_value (s : trackers) (Ha : 0 < a_tracker s) :
  exists v d : R,
    get_val s = Some v /\ get_slope s = Some d
    /\ 0 < v
    /\ (d < v <-> a_tracker s < exp 1)
    /\ (d = v <-> a_tracker s = exp 1)
    /\ (v < d <-> exp 1 < a_tracker s).
Proof.
  destruct s as [a x]; cbn [a_tracker] in *.
  exists (Rpower a x), (ln a * Rpower a x).
  assert (Hv : 0 < Rpower a x) by apply exp_pos.
  split; [now apply get_val_pos |].
  split; [now apply get_slope_pos |].
  split; [exact Hv |].
  set (v := Rpower a x) in *.
  rewrite <- (ln_lt_1_iff a Ha), <- (ln_eq_1_iff a Ha), <- (ln_gt_1_iff a Ha).
  clearbody v.
  repeat split; intros H; nra.
Qed.

Lemma slope_against_value_witness :
  0 < 2
  /\ exists v d : R,
       get_val (Trackers 2 0) = Some v /\ get_slope (Trackers 2 0) = Some d
       /\ 0 < v.
Proof.
  assert (H : 0 < 2) by lra.
  split; [exact H |].
  destruct (slope_against_value (Trackers 2 0) H)
    as (v & d & Hv & Hd & Hpos & _).
  exists v, d. repeat split; assumption.
Defined.

Lemma identity_status_cases (s : trackers) :
  (identity_status s = "IDENTICAL"%string
   /\ Rabs (a_tracker s - exp 1) < 0.01)
  \/ (identity_status s = "PROPORTIONAL"%string
      /\ 0.01 <= Rabs (a_tracker s - exp 1)).
Proof.
  unfold identity_status.
  destruct (Rlt_dec _ _) as [H | H]; [left | right]; split;
    try reflexivity; lra.
Qed.

Lemma exp_1_gt_2 : 2 < exp 1.
Proof. generalize (exp_ineq1 1 ltac:(lra)); lra. Qed.

Lemma exp_1_gt_5_2 : 5 / 2 < exp 1.
Proof.
  generalize (exp_lower_pow8 1 ltac:(lra)).
  replace ((1 + 1 / 8) ^ 8) with ((9 / 8) ^ 8) by (f_equal; field).
  lra.
Qed.

(** Logarithm near 1: [z / (1 + z) <= ln (1 + z) <= z]. *)
Lemma ln_1_plus_bounds (z : R) :
  - 1 < z -> z / (1 + z) <= ln (1 + z) <= z.
Proof.
  intros Hz.
  assert (Hp : 0 < 1 + z) by lra.
  set (y := ln (1 + z)).
  assert (Hy : exp y = 1 + z) by (unfold y; now apply exp_ln).
  split.
  - assert (H := exp_ineq1_le (- y)).
    rewrite exp_Ropp, Hy in H.
    assert (Hinv : / (1 + z) = 1 - z / (1 + z)) by (field; lra).
    lra.
  - assert (H := exp_ineq1_le y). lra.
Qed.

(** X9: While the indicator reads IDENTICAL both read-outs are numbers and
    differ by at most 0.6 percent of the value, but they are equal only at
    [a = e]; while it reads PROPORTIONAL the two read-outs, when both are
    numbers, are different. *)
Theorem identity_status_meaning (s : trackers) :
  (identity_status s = "IDENTICAL"%string ->
   exists v d : R,
     get_val s = Some v /\ get_slope s = Some d
     /\ Rabs (d - v) <= 0.006 * v
     /\ (d = v <-> a_tracker s = exp 1))
  /\ (identity_status s = "PROPORTIONAL"%string ->
      forall v d : R,
        get_val s = Some v -> get_slope s = Some d -> d <> v).
Proof.
  assert (He := exp_1_gt_2).
  destruct (identity_status_cases s) as [[Hst Hnear] | [Hst Hfar]];
    rewrite Hst; split; intros Hs; try discriminate Hs.
  - apply Rabs_def2 in Hnear.
    assert (Ha : 0 < a_tracker s) by lra.
    destruct (slope_against_value_lemma s Ha) as (Hv & Hd & Hpos & Heq).
    exists (Rpower (a_tracker s) (x_tracker s)),
      (ln (a_tracker s) * Rpower (a_tracker s) (x_tracker s)).
    repeat split; try assumption; try (apply Heq; assumption).
    set (v := Rpower (a_tracker s) (x_tracker s)) in *.
    set (z := a_tracker s / exp 1 - 1).
    assert (Hz : - 0.005 < z < 0.005).
    { unfold z.
      assert (Hq : a_tracker s / exp 1 - 1 = (a_tracker s - exp 1) / exp 1)
        by (field; lra).
      rewrite Hq.
      assert (Hi : 0 < / exp 1 < / 2).
      { split; [apply Rinv_0_lt_compat; lra |].
        apply Rinv_lt_contravar; lra. }
      unfold Rdiv. split; nra. }
    assert (Hln : ln (a_tracker s) = 1 + ln (1 + z)).
    { unfold z.
      replace (1 + (a_tracker s / exp 1 - 1)) with (a_tracker s * / exp 1)
        by (field; lra).
      rewrite ln_mult, ln_Rinv, ln_exp by
        (try apply Rinv_0_lt_compat; try apply exp_pos; assumption).
      ring. }
    destruct (ln_1_plus_bounds z ltac:(lra)) as [Hl1 Hl2].
    assert (Hl3 : - 0.006 <= z / (1 + z)).
    { apply Rmult_le_reg_r with (1 + z); [lra |].
      replace (z / (1 + z) * (1 + z)) with z by (field; lra).
      nra. }
    rewrite Hln.
    replace ((1 + ln (1 + z)) * v - v) with (ln (1 + z) * v) by ring.
    apply Rabs_le. clearbody v. split; nra.
  - intros v d Hv Hd Heq.
    assert (Ha : 0 < a_tracker s).
    { unfold get_slope, Np.log in Hd.
      destruct (Rlt_dec 0 (a_tracker s)); [assumption | discriminate]. }
    destruct (slope_against_value_lemma s Ha) as (Hv' & Hd' & Hpos & Hiff).
    rewrite Hv in Hv'. rewrite Hd in Hd'.
    injection Hv' as ->. injection Hd' as ->.
    apply Hiff in Heq.
    rewrite Heq, Rminus_diag, Rabs_R0 in Hfar. lra.
Qed.

(** The indicator reads IDENTICAL at [a = e] and PROPORTIONAL at the
    initial base [a = 2]. *)
Lemma identity_status_meaning_witness :
  (identity_status (Trackers (exp 1) 0) = "IDENTICAL"%string
   /\ exists v d : R,
        get_val (Trackers (exp 1) 0) = Some v
        /\ get_slope (Trackers (exp 1) 0) = Some d
        /\ Rabs (d - v) <= 0.006 * v)
  /\ (identity_status (Trackers 2 0) = "PROPORTIONAL"%string
      /\ forall v d : R,
           get_val (Trackers 2 0) = Some v ->
           get_slope (Trackers 2 0) = Some d -> d <> v).
Proof.
  assert (He := exp_1_gt_5_2).
  assert (H1 : identity_status (Trackers (exp 1) 0) = "IDENTICAL"%string).
  { destruct (identity_status_cases (Trackers (exp 1) 0)) as [[H _] | [_ H]];
      [exact H |].
    cbn [a_tracker] in H. rewrite Rminus_diag, Rabs_R0 in H. lra. }
  assert (H2 : identity_status (Trackers 2 0) = "PROPORTIONAL"%string).
  { destruct (identity_status_cases (Trackers 2 0)) as [[_ H] | [H _]];
      [| exact H].
    cbn [a_tracker] in H. apply Rabs_def2 in H. lra. }
  split; (split; [assumption |]).
  - destruct (proj1 (identity_status_meaning (Trackers (exp 1) 0)) H1)
      as (v & d & Hv & Hd & Hb & _).
    exists v, d. repeat split; assumption.
  - exact (proj2 (identity_status_meaning (Trackers 2 0)) H2).
Defined.

(** X10: With a positive base the tangent of the second scene is drawn: it is
    centred at the moving dot, spans 1.6 units of [x] whatever the slope
    is, and its rise over run is the slope read-out. *)
Theorem tangent_through_dot (s : trackers) (Ha : 0 < a_tracker s) :
  exists (start end_ : R * R) (v d : R),
    tangent s = Some (start, end_)
    /\ get_val s = Some v /\ get_slope s = Some d
    /\ dot_position s
       = Some ((fst start + fst end_) / 2, (snd start + snd end_) / 2)
    /\ dot_position s = Some (x_tracker s, v)
    /\ fst end_ - fst start = 1.6
    /\ snd end_ - snd start = d * (fst end_ - fst start).
Proof.
  destruct (slope_against_value_lemma s Ha) as (Hv & Hd & _ & _).
  set (v := Rpower (a_tracker s) (x_tracker s)) in *.
  set (d := ln (a_tracker s) * v) in *.
  exists (x_tracker s - 0.8, v - d * 0.8), (x_tracker s + 0.8, v + d * 0.8),
    v, d.
  unfold tangent, dot_position.
  rewrite Hv, Hd; cbn [fst snd].
  repeat split; try reflexivity; try lra.
  do 2 f_equal; lra.
Qed.

Lemma tangent_through_dot_witness :
  0 < 2
  /\ exists (start end_ : R * R),
       tangent (Trackers 2 0) = Some (start, end_)
       /\ fst end_ - fst start = 1.6.
Proof.
  assert (H : 0 < 2) by lra.
  split; [exact H |].
  destruct (tangent_through_dot (Trackers 2 0) H)
    as (st & en & v & d & Ht & _ & _ & _ & _ & Hrun & _).
  exists st, en. split; assumption.
Defined.

Lemma np_power_zero_exponent (a : R) : Np.power a 0 = Some 1.
Proof.
  unfold Np.power.
  destruct (Rlt_dec 0 a) as [Ha | Ha].
  - now rewrite Rpower_O.
  - destruct (Req_dec_T a 0) as [Hz | Hz].
    + destruct (Rlt_dec 0 0) as [H | _]; [lra |].
      destruct (Req_dec_T 0 0) as [_ | H]; [reflexivity | contradiction].
    + rewrite ZfloorZ.
      destruct (Req_dec_T 0 0) as [_ | H]; [reflexivity | contradiction].
Qed.

(** X11: With a base that is not positive the slope read-out is never a number
    (the logarithm is not), so neither the pair of read-outs nor the
    tangent exists, although the value read-out still can be a number: at
    [x = 0] it is 1 for every base. *)
Theorem nonpositive_base (a x : R) (Ha : a <= 0) :
  get_slope (Trackers a x) = None
  /\ expValueAndDerivative a x = None
  /\ tangent (Trackers a x) = None
  /\ get_val (Trackers a 0) = Some 1.
Proof.
  assert (Hs : get_slope (Trackers a x) = None).
  { unfold get_slope, Np.log; cbn [a_tracker].
    destruct (Rlt_dec 0 a); [lra | reflexivity]. }
  repeat split.
  - exact Hs.
  - unfold expValueAndDerivative; cbv zeta. rewrite Hs.
    now destruct (get_val _).
  - unfold tangent. rewrite Hs.
    now destruct (get_val _).
  - apply np_power_zero_exponent.
Qed.

Lemma nonpositive_base_witness :
  - 2 <= 0
  /\ get_slope (Trackers (- 2) 3) = None
  /\ get_val (Trackers (- 2) 0) = Some 1.
Proof.
  assert (H : - 2 <= 0) by lra.
  split; [exact H |].
  destruct (nonpositive_base (- 2) 3 H) as (Hs & _ & _ & Hv).
  split; assumption.
Defined.

Lemma exp_le_mono (a b : R) : a <= b -> exp a <= exp b.
Proof.
  intros [Hlt | ->].
  - left; now apply exp_increasing.
  - right; reflexivity.
Qed.

Lemma exp_23_lt_15 : exp 2.3 < 15.
Proof.
  replace 2.3 with (1 + (1 + 0.3)) by lra.
  rewrite !exp_plus.
  assert (He := exp_le_3).
  assert (Hp := exp_pos 1).
  assert (H3 := exp_upper_inv 0.3 ltac:(lra)).
  assert (Hq := exp_pos 0.3).
  assert (Hb : exp 0.3 <= 1.5) by nra.
  nra.
Qed.

(** X12: While the base runs from 2 to [e] the two plotted curves stay inside
    the axes over the whole plotted range: the value lies strictly between
    the ends of the [y_range] and the slope between 0 and the value. *)
Theorem curves_within_axes
    (a x : R) (Ha : 2 <= a <= exp 1)
    (Hx : fst plot_x_range <= x <= snd plot_x_range) :
  exists v d : R,
    expValueAndDerivative a x = Some (v, d)
    /\ fst axes_y_range < v < snd axes_y_range
    /\ 0 < d <= v.
Proof.
  unfold plot_x_range, axes_y_range in *; cbn [fst snd] in *.
  assert (Hpos : 0 < a) by lra.
  exists (Rpower a x), (ln a * Rpower a x).
  split; [now apply expValueAndDerivative_pos |].
  assert (HL : 13 / 20 <= ln a <= 1).
  { destruct ln_2_bounds as [Hl2 _].
    split.
    - apply Rle_trans with (ln 2); [exact Hl2 |].
      apply ln_le_mono; lra.
    - rewrite <- (ln_exp 1). apply ln_le_mono; lra. }
  assert (Hv : 0 < Rpower a x) by apply exp_pos.
  assert (Hup : Rpower a x < 15).
  { apply Rle_lt_trans with (exp 2.3); [| apply exp_23_lt_15].
    unfold Rpower. apply exp_le_mono.
    destruct (Rle_dec 0 x); nra. }
  set (v := Rpower a x) in *. clearbody v.
  repeat split; nra.
Qed.

Lemma curves_within_axes_witness :
  2 <= 2 <= exp 1
  /\ fst plot_x_range <= 0 <= snd plot_x_range
  /\ exists v d : R,
       expValueAndDerivative 2 0 = Some (v, d) /\ 0 < d <= v.
Proof.
  assert (Ha : 2 <= 2 <= exp 1) by (generalize exp_1_gt_2; lra).
  assert (Hx : fst plot_x_range <= 0 <= snd plot_x_range)
    by (unfold plot_x_range; cbn [fst snd]; lra).
  split; [exact Ha | split; [exact Hx |]].
  destruct (curves_within_axes 2 0 Ha Hx) as (v & d & He & _ & Hd).
  exists v, d. split; assumption.
Defined.

(** ** 03: multiplication by j, the steps and the colour gamut *)


Section Steps.

Variables BLUE GREEN RED PURPLE : color.

#[local] Abbreviation wheelColor := (get_current_color BLUE GREEN RED PURPLE).


(** X15: The wheel never leaves the gamut of its anchors: every channel of the
    colour lies between the values of that channel at the two anchors of
    the branch taken. *)
Theorem get_current_color_between_anchors (ch : channel) (theta : R) :
  let c1 := fst (current_anchors BLUE GREEN RED PURPLE theta) in
  let c2 := snd (current_anchors BLUE GREEN RED PURPLE theta) in
  Rmin (get ch c1) (get ch c2) <= get ch (wheelColor theta)
    <= Rmax (get ch c1) (get ch c2).
Proof.
  cbv zeta.
  rewrite get_current_color_branch, get_interpolate_color.
  destruct (current_fraction_range theta) as [H0 H1].
  set (al := current_fraction theta) in *.
  set (u := get ch (fst (current_anchors BLUE GREEN RED PURPLE theta))).
  set (v := get ch (snd (current_anchors BLUE GREEN RED PURPLE theta))).
  clearbody al u v.
  unfold Rmin, Rmax.
  destruct (Rle_dec u v); split; nra.
Qed.

End Steps.

(** ** 04: the projection triangle *)

(** X16: The imaginary projection line is vertical, starts on the real axis
    at the end of the real projection and ends at the tip of the rotating
    vector; its signed height is [sin t], and the two projections are the
    legs of a right triangle with hypotenuse 1. *)
Theorem imag_line_projection (t : R) :
  let line := EulerLiveVisualization.imag_line t in
  fst line = EulerLiveVisualization.real_line_end t
  /\ snd line = EulerLiveVisualization.vector_end t
  /\ fst (fst line) = fst (snd line)
  /\ snd (fst line) = 0
  /\ snd (snd line) - snd (fst line) = sin t
  /\ Rsqr (fst (fst line)) + Rsqr (snd (snd line) - snd (fst line)) = 1.
Proof.
  cbv zeta.
  unfold EulerLiveVisualization.imag_line.
  change (Np.cexp (Np.cmul Np.j (Np.of_real t))) with (phasor_end t).
  rewrite phasor_end_cos_sin.
  unfold EulerLiveVisualization.real_line_end,
    EulerLiveVisualization.vector_end, Np.of_real; cbn [fst snd].
  change (Np.cexp (Np.cmul Np.j (t, 0))) with (phasor_end t).
  rewrite phasor_end_cos_sin.
  repeat split; try ring.
  rewrite Rminus_0_r, Rplus_comm. apply sin2_cos2.
Qed.

(** ** 05: the helix *)

Import EulerPropagation.


(** X18: Over its [t_range] the helix stays inside the box of the axes: it
    starts at theta coordinate 0, ends at 6, and advances in between. *)
Theorem helix_within_axes (t : R)
    (Ht : fst helix_t_range <= t <= snd helix_t_range) :
  let '(x, im, re) := helix t in
  0 <= x <= 6
  /\ fst x_range < x < snd x_range
  /\ fst y_range < im < snd y_range
  /\ fst z_range < re < snd z_range.
Proof.
  unfold helix, helix_t_range, x_range, y_range, z_range in *;
    cbn [fst snd] in *.
  assert (Hpi := PI_RGT_0).
  assert (Hs := SIN_bound t).
  assert (Hc := COS_bound t).
  assert (Hx : 0 <= t / (2 * PI) * 3 <= 6).
  { replace (t / (2 * PI) * 3) with (t * (3 / (2 * PI))) by (field; lra).
    assert (Hk : 0 < 3 / (2 * PI))
      by (apply Rdiv_lt_0_compat; lra).
    assert (Hk2 : 4 * PI * (3 / (2 * PI)) = 6) by (field; lra).
    split; [nra |].
    rewrite <- Hk2. apply Rmult_le_compat_r; lra. }
  repeat split; lra.
Qed.

Lemma helix_within_axes_witness :
  fst helix_t_range <= 0 <= snd helix_t_range
  /\ helix 0 = (0, 0, 1).
Proof.
  assert (H : fst helix_t_range <= 0 <= snd helix_t_range).
  { unfold helix_t_range; cbn [fst snd]. generalize PI_RGT_0; lra. }
  split; [exact H |].
  generalize (helix_within_axes 0 H).
  unfold helix. intros _.
  rewrite sin_0, cos_0.
  f_equal; f_equal. unfold Rdiv. ring.
Defined.

(** X19: The point where the dot is first put, [(0, 1, 0)], is no point of the
    helix: the only helix point with theta coordinate 0 is [(0, 0, 1)], so
    the dot is moved when it starts to follow the helix. *)
Theorem dot_start_not_on_helix (t : R) :
  helix t <> dot_start
  /\ (fst (fst (helix t)) = 0 -> helix t = (0, 0, 1)).
Proof.
  assert (Hpi := PI_RGT_0).
  assert (Hzero : fst (fst (helix t)) = 0 -> t = 0).
  { unfold helix; cbn [fst]. intros H.
    assert (Hk : t = t / (2 * PI) * 3 * (2 * PI / 3)) by (field; lra).
    rewrite Hk, H. ring. }
  split.
  - intros Heq.
    assert (Hx : fst (fst (helix t)) = 0) by (rewrite Heq; reflexivity).
    apply Hzero in Hx. subst t.
    unfold helix, dot_start in Heq.
    rewrite sin_0 in Heq.
    injection Heq as _ H. lra.
  - intros Hx. apply Hzero in Hx. subst t.
    unfold helix. rewrite sin_0, cos_0.
    f_equal; f_equal. unfold Rdiv. ring.
Qed.
